(** * BlobTriggerFunction: the blob audit handler

    A shallow embedding of [src/BlobTriggerFunction/__init__.py] (function
    [main]) and the properties of it that the specification states.

    Layout of the development:
    - [PyStr]: the string operations of the Python runtime that [main] uses
      ([str.lower], [str.rfind], slices, [os.path.splitext]);
    - [Classifier]: lines 44-54, the extension to content type table;
    - [Store]: the audit store as the three SQL statements of [main] see it;
    - [Handler]: [main] itself, in a state and exception monad over the
      store client ([pyodbc]) with an environment that decides which client
      calls fail;
    - the notions that the statements use, and sample inputs;
    - the properties: facts about strings and the store, the execution of
      the client calls on an explicit world, and the claims C1 to C10. *)

From Stdlib Require Import ZArith Lia Bool List String Ascii.
Import ListNotations.

Local Open Scope string_scope.
Local Open Scope Z_scope.

(* ================================================================== *)
(** ** Python strings *)

Module PyStr.

(** A [str] is modelled as a [string] whose characters are the code points
    below 256 (Latin-1).  On that range [str.lower] is a character-wise map:
    the ASCII capitals and the Latin-1 capitals U+00C0..U+00DE (U+00D7, the
    multiplication sign, apart) move up by 32; everything else is kept. *)
Definition lower_char (c : ascii) : ascii :=
  let n := N_of_ascii c in
  if ((65 <=? n) && (n <=? 90))%N
     || ((192 <=? n) && (n <=? 222) && negb (n =? 215))%N
  then ascii_of_N (n + 32)
  else c.

Fixpoint lower (s : string) : string :=
  match s with
  | EmptyString => EmptyString
  | String c s' => String (lower_char c) (lower s')
  end.

(** [s.rfind(c)] for a one-character [c]: the highest index at which [c]
    occurs, or [-1]. *)
Fixpoint rfind_from (s : string) (c : ascii) (i last : Z) : Z :=
  match s with
  | EmptyString => last
  | String a s' => rfind_from s' c (i + 1) (if Ascii.eqb a c then i else last)
  end.

Definition rfind (s : string) (c : ascii) : Z := rfind_from s c 0 (-1).

(** The slices [p[:i]] and [p[i:]] for [0 <= i]. *)
Definition slice_to (p : string) (i : Z) : string :=
  substring 0 (Z.to_nat i) p.

Definition slice_from (p : string) (i : Z) : string :=
  substring (Z.to_nat i) (length p - Z.to_nat i) p.

(** The loop of [genericpath._splitext] that skips the leading dots of the
    last path component:
<<
    while filenameIndex < dotIndex:
        if p[filenameIndex:filenameIndex+1] != extsep:
            return p[:dotIndex], p[dotIndex:]
        filenameIndex += 1
>>
    [n] counts the iterations that are left ([dotIndex - filenameIndex]); the
    result says whether the loop returned from inside. *)
Fixpoint finds_non_dot (p : string) (extsep : ascii) (filenameIndex : Z)
         (n : nat) : bool :=
  match n with
  | O => false
  | S n' =>
      match get (Z.to_nat filenameIndex) p with
      | Some a =>
          if Ascii.eqb a extsep
          then finds_non_dot p extsep (filenameIndex + 1) n'
          else true
      | None => true
      end
  end.

(** [genericpath._splitext(p, sep, altsep, extsep)]. *)
Definition _splitext (p : string) (sep : ascii) (altsep : option ascii)
           (extsep : ascii) : string * string :=
  let sepIndex := rfind p sep in
  let sepIndex :=
    match altsep with
    | Some a => Z.max sepIndex (rfind p a)
    | None => sepIndex
    end in
  let dotIndex := rfind p extsep in
  if (sepIndex <? dotIndex)
     && finds_non_dot p extsep (sepIndex + 1)
          (Z.to_nat (dotIndex - (sepIndex + 1)))
  then (slice_to p dotIndex, slice_from p dotIndex)
  else (p, EmptyString).

(** [os.path.splitext] where the function runs ([posixpath]: [sep = '/'],
    no [altsep], [extsep = '.']). *)
Definition splitext (p : string) : string * string :=
  _splitext p "/"%char None "."%char.

End PyStr.

(* ================================================================== *)
(** ** The content type classifier (lines 44-54 of [main]) *)

Module Classifier.

Definition file_extension (name : string) : string :=
  PyStr.lower (snd (PyStr.splitext name)).

(** The [if]/[elif] chain over [file_extension], with its default. *)
Definition content_type_of (file_extension : string) : string :=
  if (file_extension =? ".txt")%string then "text/plain"
  else if (file_extension =? ".edi")%string then "application/edi"
  else if (file_extension =? ".xml")%string then "application/xml"
  else if (file_extension =? ".json")%string then "application/json"
  else "text/plain".

Definition classify (name : string) : string :=
  content_type_of (file_extension name).

(** The extension as the specification words it: the lowercased suffix of
    the name that starts at its final ['.'], empty when there is no dot. *)
Fixpoint after_last (c : ascii) (s : string) : option string :=
  match s with
  | EmptyString => None
  | String a s' =>
      match after_last c s' with
      | Some t => Some t
      | None => if Ascii.eqb a c then Some s else None
      end
  end.

Definition spec_extension (name : string) : string :=
  match after_last "."%char name with
  | Some t => PyStr.lower t
  | None => EmptyString
  end.

(** What [os.path.splitext] looks at, said without indices: the last path
    component, and whether anything but dots precedes its final dot. *)
Fixpoint before_last (c : ascii) (s : string) : string :=
  match s with
  | EmptyString => EmptyString
  | String a s' =>
      match after_last c s' with
      | Some _ => String a (before_last c s')
      | None => if Ascii.eqb a c then EmptyString else s
      end
  end.

Definition basename (name : string) : string :=
  match after_last "/"%char name with
  | Some (String _ t) => t
  | _ => name
  end.

Fixpoint has_non_dot (s : string) : bool :=
  match s with
  | EmptyString => false
  | String a s' => negb (Ascii.eqb a "."%char) || has_non_dot s'
  end.

Definition has_stem (name : string) : bool :=
  match after_last "."%char (basename name) with
  | Some _ => has_non_dot (before_last "."%char (basename name))
  | None => false
  end.

End Classifier.

(* ================================================================== *)
(** ** The audit store *)

Module Store.

(** The column layout that [create_table_sql] (lines 29-39) declares. *)
Inductive sqltype := INT | BIGINT | NVARCHAR (n : nat) | DATETIME.

Inductive default_value := GETDATE | Literal (s : string).

Record column := {
  col_name : string;
  col_type : sqltype;
  col_identity : bool;
  col_primary_key : bool;
  col_default : option default_value
}.

Definition BlobAudit_columns : list column :=
  [ {| col_name := "Id"; col_type := INT; col_identity := true;
       col_primary_key := true; col_default := None |};
    {| col_name := "BlobName"; col_type := NVARCHAR 500; col_identity := false;
       col_primary_key := false; col_default := None |};
    {| col_name := "BlobSize"; col_type := BIGINT; col_identity := false;
       col_primary_key := false; col_default := None |};
    {| col_name := "ProcessedAt"; col_type := DATETIME; col_identity := false;
       col_primary_key := false; col_default := Some GETDATE |};
    {| col_name := "ContentType"; col_type := NVARCHAR 100; col_identity := false;
       col_primary_key := false; col_default := None |};
    {| col_name := "Status"; col_type := NVARCHAR 50; col_identity := false;
       col_primary_key := false; col_default := Some (Literal "Processed") |} ].

(** A row of [BlobAudit]. *)
Record AuditRecord := {
  Id : Z;
  BlobName : string;
  BlobSize : Z;
  ProcessedAt : Z;
  ContentType : string;
  Status : string
}.

(** A user table: its rows and the next value of its identity column. *)
Record table := {
  tbl_name : string;
  tbl_columns : list column;
  tbl_rows : list AuditRecord;
  tbl_identity : Z
}.

(** The catalog lists the user tables of the store, that is the rows of
    [sysobjects] with [xtype = 'U']. *)
Definition catalog := list table.

Definition named (n : string) (t : table) : bool := String.eqb (tbl_name t) n.

(** [EXISTS (SELECT * FROM sysobjects WHERE name = n AND xtype = 'U')]. *)
Definition exists_table (n : string) (c : catalog) : bool := existsb (named n) c.

Definition find_table (n : string) (c : catalog) : option table := find (named n) c.

Definition count_tables (n : string) (c : catalog) : nat :=
  List.length (filter (named n) c).

(** [CREATE TABLE]: refused when the name is taken; the identity column
    starts at 1. *)
Definition create_table (n : string) (cols : list column) (c : catalog)
  : option catalog :=
  if exists_table n c then None
  else Some (c ++ [ {| tbl_name := n; tbl_columns := cols; tbl_rows := [];
                       tbl_identity := 1 |} ])%list.

(** [INSERT INTO n]: refused when there is no such table; the row takes the
    table's next identity value. *)
Fixpoint insert_into (n : string) (row : Z -> AuditRecord) (c : catalog)
  : option catalog :=
  match c with
  | [] => None
  | t :: c' =>
      if named n t
      then Some ({| tbl_name := tbl_name t; tbl_columns := tbl_columns t;
                    tbl_rows := (tbl_rows t ++ [row (tbl_identity t)])%list;
                    tbl_identity := tbl_identity t + 1 |} :: c')
      else option_map (cons t) (insert_into n row c')
  end.

(** [SELECT COUNT( * ) FROM n]. *)
Definition select_count (n : string) (c : catalog) : option Z :=
  option_map (fun t => Z.of_nat (List.length (tbl_rows t))) (find_table n c).

(** The three statements that [main] sends, with their parameters. *)
Inductive statement :=
| create_table_sql
| insert_sql (name : string) (size : Z) (content_type status : string)
| count_sql.

(** What a statement does to the catalog that the session sees, at store time
    [now]: the new catalog and the result set (none for a statement that is
    not a query), or [None] when the store rejects the statement. *)
Definition execute (st : statement) (now : Z) (c : catalog)
  : option (catalog * option (list (list Z))) :=
  match st with
  | create_table_sql =>
      if negb (exists_table "BlobAudit" c)
      then option_map (fun c' => (c', None))
             (create_table "BlobAudit" BlobAudit_columns c)
      else Some (c, None)
  | insert_sql name size content_type status =>
      option_map (fun c' => (c', None))
        (insert_into "BlobAudit"
           (fun id => {| Id := id; BlobName := name; BlobSize := size;
                         ProcessedAt := now; ContentType := content_type;
                         Status := status |}) c)
  | count_sql =>
      option_map (fun n => (c, Some [[n]])) (select_count "BlobAudit" c)
  end.

(** The rows of [BlobAudit], none when the table is absent. *)
Definition rows (c : catalog) : list AuditRecord :=
  match find_table "BlobAudit" c with
  | Some t => tbl_rows t
  | None => []
  end.

Definition next_identity (c : catalog) : Z :=
  match find_table "BlobAudit" c with
  | Some t => tbl_identity t
  | None => 1
  end.

End Store.

(* ================================================================== *)
(** ** The handler *)

(** [azure.functions.InputStream], as far as [main] reads it. *)
Module func.

Record InputStream := {
  name : string;
  length : Z;
  content : list ascii
}.

Definition read (inputBlob : InputStream) : list ascii := content inputBlob.

End func.

Module Handler.

Import Store.

(** *** Exceptions *)

(** The exception classes that matter to the [except] clauses of [main].
    [other_Exception] stands for any further subclass of [Exception],
    [other_BaseException] for a class outside it ([KeyboardInterrupt],
    [SystemExit]); both carry the class name, which line 82 logs. *)
Inductive exn_class :=
| ValueError
| TypeError
| IndexError
| pyodbc_Error
| pyodbc_ProgrammingError
| pyodbc_OperationalError
| other_Exception (cls : string)
| other_BaseException (cls : string).

(** An exception object: its class and [args[0]]. *)
Record exn := { exn_type : exn_class; exn_arg : string }.

(** [isinstance(e, pyodbc.Error)]. *)
Definition is_pyodbc_Error (e : exn) : bool :=
  match exn_type e with
  | pyodbc_Error | pyodbc_ProgrammingError | pyodbc_OperationalError => true
  | _ => false
  end.

(** [isinstance(e, Exception)]. *)
Definition is_Exception (e : exn) : bool :=
  match exn_type e with
  | other_BaseException _ => false
  | _ => true
  end.

(** [type(e).__name__]. *)
Definition type_name (e : exn) : string :=
  match exn_type e with
  | ValueError => "ValueError"
  | TypeError => "TypeError"
  | IndexError => "IndexError"
  | pyodbc_Error => "Error"
  | pyodbc_ProgrammingError => "ProgrammingError"
  | pyodbc_OperationalError => "OperationalError"
  | other_Exception cls => cls
  | other_BaseException cls => cls
  end.

(** The fault taxonomy of the specification, read off the exception. *)
Inductive fault_kind := ConfigFault | StoreFault | UnexpectedFault.

Definition kind_of (e : exn) : fault_kind :=
  if is_pyodbc_Error e then StoreFault
  else match exn_type e with
       | ValueError => ConfigFault
       | _ => UnexpectedFault
       end.

(** *** The environment of an invocation *)

(** The places of [main] that call the store client, by line. *)
Inductive site :=
| at_connect            (* 24 *)
| at_cursor             (* 25 *)
| at_execute_create     (* 40 *)
| at_commit_create      (* 41 *)
| at_execute_insert     (* 61 *)
| at_commit_insert      (* 62 *)
| at_execute_count      (* 66 *)
| at_fetchone           (* 67 *)
| at_cur_close          (* 71 *)
| at_cn_close           (* 72 *)
| at_finally_cur_close  (* 88 *)
| at_finally_cn_close.  (* 90 *)

(** What the invocation does not control: the process environment, the
    store's clock, and which client calls the store or the network fails
    (time-out, constraint violation, connection loss, an interrupt) and with
    which exception. *)
Record environment := {
  SQLConnectionString : option string;
  fault : site -> option exn;
  now : Z
}.

(** *** The state of an invocation *)

(** A local name that holds a client object: not yet assigned, or assigned to
    an object that is open or closed. *)
Inductive local := Unbound | Open | Closed.

Definition bound (h : local) : bool :=
  match h with Unbound => false | _ => true end.

(** The calls that reach the store, in the order they were made. *)
Inductive client_call :=
| Connect (conn_str : string) (timeout : Z)
| Cursor
| Execute (st : statement)
| Commit
| Fetchone
| CursorClose
| ConnectionClose.

Inductive log_arg := S_ (s : string) | D_ (n : Z) | X_ (e : exn).

Inductive log_record :=
| info (msg : string) (args : list log_arg)
| error (msg : string) (args : list log_arg).

Record world := World {
  committed : catalog;                 (* the durable state of the store *)
  session : catalog;                   (* the connection's view: committed
                                          state and its uncommitted work *)
  cn : local;
  cur : local;
  resultset : option (list (list Z));  (* the cursor's pending rows *)
  spy : list client_call;
  logs : list log_record
}.

(** The world in which an invocation starts, over a store in state [c]. *)
Definition fresh (c : catalog) : world :=
  {| committed := c; session := c; cn := Unbound; cur := Unbound;
     resultset := None; spy := []; logs := [] |}.

Definition set_committed (c : catalog) (w : world) : world :=
  {| committed := c; session := session w; cn := cn w; cur := cur w;
     resultset := resultset w; spy := spy w; logs := logs w |}.

Definition set_session (c : catalog) (w : world) : world :=
  {| committed := committed w; session := c; cn := cn w; cur := cur w;
     resultset := resultset w; spy := spy w; logs := logs w |}.

Definition set_cn (h : local) (w : world) : world :=
  {| committed := committed w; session := session w; cn := h; cur := cur w;
     resultset := resultset w; spy := spy w; logs := logs w |}.

Definition set_cur (h : local) (w : world) : world :=
  {| committed := committed w; session := session w; cn := cn w; cur := h;
     resultset := resultset w; spy := spy w; logs := logs w |}.

Definition set_resultset (r : option (list (list Z))) (w : world) : world :=
  {| committed := committed w; session := session w; cn := cn w; cur := cur w;
     resultset := r; spy := spy w; logs := logs w |}.

Definition add_spy (c : client_call) (w : world) : world :=
  {| committed := committed w; session := session w; cn := cn w; cur := cur w;
     resultset := resultset w; spy := (spy w ++ [c])%list; logs := logs w |}.

Definition add_log (l : log_record) (w : world) : world :=
  {| committed := committed w; session := session w; cn := cn w; cur := cur w;
     resultset := resultset w; spy := spy w; logs := (logs w ++ [l])%list |}.

(** *** The monad: state and exceptions *)

Inductive result (A : Type) :=
| Return (a : A)
| Raise (e : exn).

Arguments Return {A} a.
Arguments Raise {A} e.

Definition M (A : Type) : Type := world -> result A * world.

Definition ret {A} (a : A) : M A := fun w => (Return a, w).

Definition raise {A} (e : exn) : M A := fun w => (Raise e, w).

Definition bind {A B} (m : M A) (k : A -> M B) : M B :=
  fun w =>
    match m w with
    | (Return a, w') => k a w'
    | (Raise e, w') => (Raise e, w')
    end.

Definition gets {A} (f : world -> A) : M A := fun w => (Return (f w), w).

Definition modify (f : world -> world) : M unit := fun w => (Return tt, f w).

(** [try: m  except <clauses>: h]: [h] decides per exception, and re-raises
    the ones that no clause matches. *)
Definition try_except {A} (m : M A) (h : exn -> M A) : M A :=
  fun w =>
    match m w with
    | (Return a, w') => (Return a, w')
    | (Raise e, w') => h e w'
    end.

(** [try: m  finally: f]: [f] runs on every way out of [m]; an exception
    that leaves [f] takes the place of the outcome of [m]. *)
Definition try_finally {A} (m : M A) (f : M unit) : M A :=
  fun w =>
    match m w with
    | (r, w1) =>
        match f w1 with
        | (Return _, w2) => (r, w2)
        | (Raise e, w2) => (Raise e, w2)
        end
    end.

Declare Scope py_scope.
Delimit Scope py_scope with py.
Notation "x <- m ;; k" := (bind m (fun x => k))
  (at level 100, m at next level, right associativity) : py_scope.
Notation "m ;; k" := (bind m (fun _ => k))
  (at level 100, right associativity) : py_scope.
Local Open Scope py_scope.

Definition logging_info (msg : string) (args : list log_arg) : M unit :=
  modify (add_log (info msg args)).

Definition logging_error (msg : string) (args : list log_arg) : M unit :=
  modify (add_log (error msg args)).

(** *** The store client ([pyodbc]) *)

Section Invocation.

Variable E : environment.

(** A call that reaches the store: it is recorded, and the environment
    decides whether it fails.  A call that fails has no effect on the store
    or on the session. *)
Definition call (s : site) (c : client_call) : M unit :=
  modify (add_spy c) ;;
  match fault E s with
  | Some e => raise e
  | None => ret tt
  end.

Definition closed_cursor : exn :=
  {| exn_type := pyodbc_ProgrammingError;
     exn_arg := "Attempt to use a closed cursor." |}.

Definition closed_connection : exn :=
  {| exn_type := pyodbc_ProgrammingError;
     exn_arg := "Attempt to use a closed connection." |}.

Definition rejected_statement : exn :=
  {| exn_type := pyodbc_ProgrammingError; exn_arg := "42000" |}.

Definition no_results : exn :=
  {| exn_type := pyodbc_ProgrammingError;
     exn_arg := "No results.  Previous SQL was not a query." |}.

(** The client refuses a call on an object that is not open before anything
    reaches the store. *)
Definition require (h : world -> local) (e : exn) : M unit :=
  st <- gets h ;;
  match st with
  | Open => ret tt
  | _ => raise e
  end.

(** [cn = pyodbc.connect(conn_str, timeout=...)]: a new session, which sees
    the committed state. *)
Definition pyodbc_connect (s : site) (conn_str : string) (timeout : Z) : M unit :=
  call s (Connect conn_str timeout) ;;
  modify (fun w => set_cn Open (set_session (committed w) w)).

(** [cur = cn.cursor()]. *)
Definition cn_cursor (s : site) : M unit :=
  require cn closed_connection ;;
  call s Cursor ;;
  modify (set_cur Open).

(** [cur.execute(st)]: the statement works on the session's view.  A
    statement whose parameters the client cannot bind (a length beyond 64
    bits) or that the store refuses (a name wider than its column) is a call
    that fails, and like a lost link it is the environment that decides it:
    [fault] at this site. *)
Definition cur_execute (s : site) (st : statement) : M unit :=
  require cur closed_cursor ;;
  call s (Execute st) ;;
  c <- gets session ;;
  match execute st (now E) c with
  | Some (c', rs) => modify (fun w => set_resultset rs (set_session c' w))
  | None => raise rejected_statement
  end.

(** [cn.commit()]: the session's work becomes durable. *)
Definition cn_commit (s : site) : M unit :=
  require cn closed_connection ;;
  call s Commit ;;
  modify (fun w => set_committed (session w) w).

(** [cur.fetchone()]: the next row, or [None] after the last one. *)
Definition cur_fetchone (s : site) : M (option (list Z)) :=
  require cur closed_cursor ;;
  call s Fetchone ;;
  rs <- gets resultset ;;
  match rs with
  | None => raise no_results
  | Some [] => ret None
  | Some (row :: rest) => modify (set_resultset (Some rest)) ;; ret (Some row)
  end.

(** [row[0]]. *)
Definition getitem0 (row : option (list Z)) : M Z :=
  match row with
  | None =>
      raise {| exn_type := TypeError;
               exn_arg := "'NoneType' object is not subscriptable" |}
  | Some [] =>
      raise {| exn_type := IndexError; exn_arg := "tuple index out of range" |}
  | Some (x :: _) => ret x
  end.

(** [cur.close()].  The client marks the cursor closed and drops its rows
    before it asks the driver to free the statement, so the cursor is closed
    also when that call fails: a second [cur.close()] is then refused. *)
Definition cur_close (s : site) : M unit :=
  require cur closed_cursor ;;
  modify (fun w => set_resultset None (set_cur Closed (add_spy CursorClose w))) ;;
  match fault E s with
  | Some e => raise e
  | None => ret tt
  end.

(** [cn.close()]: uncommitted work is rolled back, and a cursor that is still
    open goes with the connection. *)
Definition cn_close (s : site) : M unit :=
  require cn closed_connection ;;
  call s ConnectionClose ;;
  modify (fun w =>
            set_cn Closed
              (set_cur (match cur w with Unbound => Unbound | _ => Closed end)
                 (set_resultset None (set_session (committed w) w)))).

(** *** [main] *)

(** Lines 28-42: create the table when it is absent, and commit. *)
Definition ensure : M unit :=
  cur_execute at_execute_create create_table_sql ;;
  cn_commit at_commit_create ;;
  logging_info "BlobAudit table ready" [].

(** Lines 56-63: insert the audit row, and commit. *)
Definition recordAudit (name : string) (size : Z) (content_type status : string)
  : M unit :=
  cur_execute at_execute_insert (insert_sql name size content_type status) ;;
  cn_commit at_commit_insert ;;
  logging_info "Inserted audit record for blob: %s" [S_ name].

(** Lines 65-67: the running total. *)
Definition countAll : M Z :=
  cur_execute at_execute_count count_sql ;;
  row <- cur_fetchone at_fetchone ;;
  getitem0 row.

(** Lines 16-74, the suite of the [try].  [if not conn_str] holds for [None]
    and for the empty string. *)
Definition try_suite (inputBlob : func.InputStream) : M unit :=
  match SQLConnectionString E with
  | None | Some EmptyString =>
      raise {| exn_type := ValueError;
               exn_arg := "SQLConnectionString environment variable not found" |}
  | Some conn_str =>
      logging_info "Connecting to SQL database..." [] ;;
      pyodbc_connect at_connect conn_str 30 ;;
      cn_cursor at_cursor ;;
      logging_info "Connected to SQL successfully." [] ;;
      ensure ;;
      let content_type := Classifier.classify (func.name inputBlob) in
      recordAudit (func.name inputBlob) (func.length inputBlob)
        content_type "Processed" ;;
      total_count <- countAll ;;
      logging_info "Total files processed so far: %d" [D_ total_count] ;;
      cur_close at_cur_close ;;
      cn_close at_cn_close ;;
      logging_info "=== BlobTriggerFunction COMPLETED SUCCESSFULLY ===" []
  end.

(** Lines 76-83: both clauses log and re-raise; an exception outside
    [Exception] matches neither. *)
Definition except_clauses (e : exn) : M unit :=
  if is_pyodbc_Error e then
    logging_error "Database error occurred: %s" [X_ e] ;;
    logging_error "SQL State: %s" [S_ (exn_arg e)] ;;
    raise e
  else if is_Exception e then
    logging_error "Unexpected error in BlobTriggerFunction: %s" [X_ e] ;;
    logging_error "Error type: %s" [S_ (type_name e)] ;;
    raise e
  else raise e.

(** Lines 84-92: one [try] around both closes, with a bare [except: pass].
    A client object is truthy, so [if 'cur' in locals() and cur] asks whether
    the name is bound. *)
Definition finally_suite : M unit :=
  try_except
    (cur_ <- gets cur ;;
     (if bound cur_ then cur_close at_finally_cur_close else ret tt) ;;
     cn_ <- gets cn ;;
     (if bound cn_ then cn_close at_finally_cn_close else ret tt))
    (fun _ => ret tt).

Definition main (inputBlob : func.InputStream) : M unit :=
  logging_info "=== BlobTriggerFunction STARTED ===" [] ;;
  logging_info "Blob name: %s, size=%d bytes"
    [S_ (func.name inputBlob); D_ (func.length inputBlob)] ;;
  let blob_content := func.read inputBlob in
  logging_info "Read blob content: %d bytes"
    [D_ (Z.of_nat (List.length blob_content))] ;;
  try_finally (try_except (try_suite inputBlob) except_clauses) finally_suite.

End Invocation.

(** One invocation over a store in state [c]. *)
Definition handle (E : environment) (event : func.InputStream) (c : catalog)
  : result unit * world :=
  main E event (fresh c).

End Handler.

Import Classifier Store Handler.

(* ================================================================== *)
(** ** Notions used in the statements *)

(** The store is reachable: no client call fails. *)
Definition reachable (E : environment) : Prop :=
  forall s : site, fault E s = None.

(** The connection string is set, and not to the empty string. *)
Definition configured (E : environment) : bool :=
  match SQLConnectionString E with
  | Some (String _ _) => true
  | _ => false
  end.

(** The table that [create_table_sql] makes. *)
Definition new_BlobAudit : table :=
  {| tbl_name := "BlobAudit"; tbl_columns := BlobAudit_columns;
     tbl_rows := []; tbl_identity := 1 |}.

(** The catalog once [create_table_sql] has run on it. *)
Definition ensured (c : catalog) : catalog :=
  if exists_table "BlobAudit" c then c else (c ++ [new_BlobAudit])%list.

(** The row that an invocation for [event] adds to a store in state [c]. *)
Definition audit_row (E : environment) (event : func.InputStream) (c : catalog)
  : AuditRecord :=
  {| Id := next_identity c;
     BlobName := func.name event;
     BlobSize := func.length event;
     ProcessedAt := now E;
     ContentType := classify (func.name event);
     Status := "Processed" |}.

(** The catalog once the event's [insert_sql] has run on [ensured c]. *)
Definition recorded (E : environment) (event : func.InputStream) (c : catalog)
  : catalog :=
  match execute (insert_sql (func.name event) (func.length event)
                   (classify (func.name event)) "Processed")
          (now E) (ensured c) with
  | Some (c', _) => c'
  | None => ensured c
  end.

(** The world when [main] enters its [try]: lines 8-13 have logged. *)
Definition started (event : func.InputStream) (w : world) : world :=
  add_log (info "Read blob content: %d bytes"
             [D_ (Z.of_nat (List.length (func.read event)))])
    (add_log (info "Blob name: %s, size=%d bytes"
                [S_ (func.name event); D_ (func.length event)])
       (add_log (info "=== BlobTriggerFunction STARTED ===" []) w)).

(** [m] run [n] times, stopping at the first exception. *)
Fixpoint iterate (n : nat) (m : M unit) : M unit :=
  match n with
  | O => ret tt
  | S n' => bind m (fun _ => iterate n' m)
  end.

(** Both client objects are released, or were never acquired. *)
Definition released (w : world) : bool :=
  match cn w, cur w with
  | Open, _ | _, Open => false
  | _, _ => true
  end.

(** The width that [create_table_sql] declares for a character column. *)
Definition column_width (n : string) : option nat :=
  match find (fun col => String.eqb (col_name col) n) BlobAudit_columns with
  | Some col =>
      match col_type col with
      | NVARCHAR w => Some w
      | _ => None
      end
  | None => None
  end.

(** What the [except] clauses log for [e]. *)
Definition error_records (e : exn) : list log_record :=
  if is_pyodbc_Error e then
    [ error "Database error occurred: %s" [X_ e];
      error "SQL State: %s" [S_ (exn_arg e)] ]
  else if is_Exception e then
    [ error "Unexpected error in BlobTriggerFunction: %s" [X_ e];
      error "Error type: %s" [S_ (type_name e)] ]
  else [].

Definition is_info (l : log_record) : bool :=
  match l with
  | info _ _ => true
  | error _ _ => false
  end.

(** The calls that the [finally] clause can add: at most one close of the
    cursor, then at most one close of the connection. *)
Definition cleanup_calls : list (list client_call) :=
  [ []; [CursorClose]; [ConnectionClose]; [CursorClose; ConnectionClose] ].

(** The connection string that line 24 passes on, empty when unset. *)
Definition conn_str_of (E : environment) : string :=
  match SQLConnectionString E with
  | Some s => s
  | None => EmptyString
  end.

(** The calls of the suite of the [try], in program order. *)
Definition suite_calls (E : environment) (event : func.InputStream)
  : list client_call :=
  [ Connect (conn_str_of E) 30; Cursor; Execute create_table_sql; Commit;
    Execute (insert_sql (func.name event) (func.length event)
               (classify (func.name event)) "Processed");
    Commit; Execute count_sql; Fetchone; CursorClose; ConnectionClose ].

(** The call sites that close a client object. *)
Definition close_sites : list site :=
  [ at_cur_close; at_cn_close; at_finally_cur_close; at_finally_cn_close ].

(** The call sites of the suite of the [try], in program order. *)
Definition suite_sites : list site :=
  [ at_connect; at_cursor; at_execute_create; at_commit_create;
    at_execute_insert; at_commit_insert; at_execute_count; at_fetchone;
    at_cur_close; at_cn_close ].

(** The exception of the first site of the list that fails. *)
Fixpoint first_fault (E : environment) (sites : list site) : option exn :=
  match sites with
  | [] => None
  | s :: rest =>
      match fault E s with
      | Some e => Some e
      | None => first_fault E rest
      end
  end.

(** How many sites of the list are reached: those up to and including the
    first one that fails. *)
Fixpoint calls_until_fault (E : environment) (sites : list site) : nat :=
  match sites with
  | [] => O
  | s :: rest =>
      match fault E s with
      | Some _ => 1%nat
      | None => S (calls_until_fault E rest)
      end
  end.

(** How many calls the suite of the [try] makes: none without a connection
    string, else those up to and including the first that fails. *)
Definition calls_made (E : environment) : nat :=
  if configured E then calls_until_fault E suite_sites else O.

(** The outcome that the environment alone announces: the [ValueError] of
    line 19 without a connection string, else the first failure among the
    calls of the suite, else a normal return. *)
Definition announced_outcome (E : environment) : result unit :=
  if configured E then
    match first_fault E suite_sites with
    | Some e => Raise e
    | None => Return tt
    end
  else
    Raise {| exn_type := ValueError;
             exn_arg := "SQLConnectionString environment variable not found" |}.

(** The outcome that the four calls after the insert's commit decide. *)
Definition outcome_after_commit (E : environment) : result unit :=
  match fault E at_execute_count with
  | Some e => Raise e
  | None =>
      match fault E at_fetchone with
      | Some e => Raise e
      | None =>
          match fault E at_cur_close with
          | Some e => Raise e
          | None =>
              match fault E at_cn_close with
              | Some e => Raise e
              | None => Return tt
              end
          end
      end
  end.

(** The store after one invocation per event, in order, each over the store
    that the one before left. *)
Fixpoint invocations (E : environment) (events : list func.InputStream)
         (c : catalog) : catalog :=
  match events with
  | [] => c
  | event :: rest => invocations E rest (committed (snd (handle E event c)))
  end.

(** The rows that [invocations] is expected to add: one per event, with
    consecutive identity values from [id] on. *)
Fixpoint audit_rows (E : environment) (events : list func.InputStream) (id : Z)
  : list AuditRecord :=
  match events with
  | [] => []
  | event :: rest =>
      {| Id := id; BlobName := func.name event; BlobSize := func.length event;
         ProcessedAt := now E; ContentType := classify (func.name event);
         Status := "Processed" |} :: audit_rows E rest (id + 1)
  end.

(** *** Sample inputs *)

Definition invoice : func.InputStream :=
  {| func.name := "invoice-2024.edi"; func.length := 4096;
     func.content := List.repeat "~"%char 4096 |}.

Definition orders : func.InputStream :=
  {| func.name := "inbox/orders.XML"; func.length := 4;
     func.content := ["<"%char; "o"%char; "/"%char; ">"%char] |}.

Definition E_ok : environment :=
  {| SQLConnectionString := Some "Server=tcp:audit;Database=edi";
     fault := fun _ => None;
     now := 1700000000 |}.

Definition link_failure : exn :=
  {| exn_type := pyodbc_OperationalError; exn_arg := "08S01" |}.

(** The link to the store drops while the insert is sent: that call and
    every later one fails. *)
Definition E_link_lost : environment :=
  {| SQLConnectionString := Some "Server=tcp:audit;Database=edi";
     fault := fun s =>
       match s with
       | at_connect | at_cursor | at_execute_create | at_commit_create => None
       | _ => Some link_failure
       end;
     now := 1700000000 |}.

(** The insert is committed, and the count statement then fails. *)
Definition E_count_fails : environment :=
  {| SQLConnectionString := Some "Server=tcp:audit;Database=edi";
     fault := fun s =>
       match s with
       | at_execute_count => Some link_failure
       | _ => None
       end;
     now := 1700000000 |}.

(** The schema statement is accepted, and its commit fails. *)
Definition E_commit_fails : environment :=
  {| SQLConnectionString := Some "Server=tcp:audit;Database=edi";
     fault := fun s =>
       match s with
       | at_commit_create => Some link_failure
       | _ => None
       end;
     now := 1700000000 |}.

(** A store that holds another table, with one row. *)
Definition c_orders : catalog :=
  [ {| tbl_name := "Orders"; tbl_columns := [];
       tbl_rows := [ {| Id := 7; BlobName := "x"; BlobSize := 0;
                        ProcessedAt := 0; ContentType := ""; Status := "" |} ];
       tbl_identity := 8 |} ].

(** Everything succeeds up to the close of the cursor at line 71, which
    fails; nothing else does. *)
Definition E_close_fails : environment :=
  {| SQLConnectionString := Some "Server=tcp:audit;Database=edi";
     fault := fun s =>
       match s with
       | at_cur_close => Some link_failure
       | _ => None
       end;
     now := 1700000000 |}.

(** No connection string, and a store that would fail every call. *)
Definition E_unset : environment :=
  {| SQLConnectionString := None;
     fault := fun _ => Some link_failure;
     now := 1700000000 |}.

Definition E_blank : environment :=
  {| SQLConnectionString := Some "";
     fault := fun _ => Some link_failure;
     now := 1700000000 |}.

(* ================================================================== *)
(** * Properties *)

(** ** Strings: indices against structure *)

Section StringFacts.

Local Open Scope nat_scope.

Lemma length_append (a b : string) :
  String.length (a ++ b) = String.length a + String.length b.
Proof. induction a as [|x a IH]; simpl; [reflexivity | now rewrite IH]. Qed.

Lemma append_nil_r (a : string) : (a ++ "")%string = a.
Proof. induction a as [|x a IH]; simpl; [reflexivity | now rewrite IH]. Qed.

Lemma append_assoc (a b c : string) : ((a ++ b) ++ c = a ++ (b ++ c))%string.
Proof. induction a as [|x a IH]; simpl; [reflexivity | now rewrite IH]. Qed.

Lemma substring_all (s : string) : substring 0 (String.length s) s = s.
Proof. induction s as [|x s IH]; simpl; [reflexivity | now rewrite IH]. Qed.

Lemma substring_prefix (a b : string) :
  substring 0 (String.length a) (a ++ b) = a.
Proof.
  induction a as [|x a IH]; simpl.
  - destruct b; reflexivity.
  - now rewrite IH.
Qed.

Lemma substring_skip (a b : string) (n : nat) :
  substring (String.length a) n (a ++ b) = substring 0 n b.
Proof. induction a as [|x a IH]; simpl; [reflexivity | exact IH]. Qed.

Lemma substring_suffix (a b : string) :
  substring (String.length a) (String.length b) (a ++ b) = b.
Proof. rewrite substring_skip. apply substring_all. Qed.

End StringFacts.

(** [after_last] and [before_last] cut a string at the last occurrence. *)
Lemma after_last_split (c : ascii) (s t : string) :
  after_last c s = Some t ->
  s = (before_last c s ++ t)%string /\
  exists t', t = String c t' /\ after_last c t' = None.
Proof.
  revert t. induction s as [|a s IH]; simpl; intros t H; [discriminate|].
  destruct (after_last c s) as [u|] eqn:Hs.
  - injection H as <-. destruct (IH u eq_refl) as [Heq Ht].
    split; [simpl; now rewrite <- Heq | exact Ht].
  - destruct (Ascii.eqb a c) eqn:Hac; [|discriminate].
    injection H as <-. apply Ascii.eqb_eq in Hac. subst a.
    split; [reflexivity | exists s; split; [reflexivity | exact Hs]].
Qed.

Lemma after_last_app_some (c : ascii) (a b t : string) :
  after_last c b = Some t ->
  after_last c (a ++ b) = Some t /\
  before_last c (a ++ b) = (a ++ before_last c b)%string.
Proof.
  intros Hb. induction a as [|x a [IH1 IH2]]; simpl.
  - split; [exact Hb | reflexivity].
  - rewrite IH1, IH2. split; reflexivity.
Qed.

Lemma after_last_app_none (c : ascii) (a b : string) :
  after_last c b = None ->
  after_last c (a ++ b) = option_map (fun t => (t ++ b)%string) (after_last c a) /\
  (forall t, after_last c a = Some t ->
             before_last c (a ++ b) = before_last c a).
Proof.
  intros Hb. induction a as [|x a [IH1 IH2]]; simpl.
  - split; [exact Hb | discriminate].
  - rewrite IH1. destruct (after_last c a) as [u|] eqn:Ha; simpl.
    + split; [reflexivity|]. intros t _. now rewrite (IH2 u eq_refl).
    + destruct (Ascii.eqb x c); split; try reflexivity; discriminate.
Qed.

Lemma before_last_length (c : ascii) (s t : string) :
  after_last c s = Some t ->
  (String.length (before_last c s) < String.length s)%nat.
Proof.
  intros H. destruct (after_last_split c s t H) as [Heq [t' [-> _]]].
  rewrite Heq at 2. rewrite length_append. simpl. lia.
Qed.

(** [rfind] is the length of what precedes the last occurrence. *)
Lemma rfind_from_spec (s : string) (c : ascii) (i last : Z) :
  PyStr.rfind_from s c i last =
  match after_last c s with
  | Some _ => i + Z.of_nat (String.length (before_last c s))
  | None => last
  end.
Proof.
  revert i last. induction s as [|a s IH]; intros i last; [reflexivity|].
  cbn [PyStr.rfind_from after_last before_last]. rewrite IH.
  destruct (after_last c s) as [u|] eqn:Hs.
  - cbn [String.length]. rewrite Nat2Z.inj_succ. lia.
  - destruct (Ascii.eqb a c); cbn [String.length]; lia.
Qed.

Lemma rfind_spec (s : string) (c : ascii) :
  PyStr.rfind s c =
  match after_last c s with
  | Some _ => Z.of_nat (String.length (before_last c s))
  | None => -1
  end.
Proof.
  unfold PyStr.rfind. rewrite rfind_from_spec.
  destruct (after_last c s); lia.
Qed.

Lemma get_append (a : string) (x : ascii) (r : string) :
  get (String.length a) (a ++ String x r) = Some x.
Proof. induction a as [|y a IH]; simpl; [reflexivity | exact IH]. Qed.

(** The loop of [_splitext] over [p[len a : len a + len b]] finds what
    [has_non_dot] finds in [b]. *)
Lemma finds_non_dot_spec (a b r : string) :
  PyStr.finds_non_dot (a ++ b ++ r) "."%char
    (Z.of_nat (String.length a)) (String.length b) = has_non_dot b.
Proof.
  revert a. induction b as [|x b IH]; intros a; [reflexivity|].
  cbn [String.length PyStr.finds_non_dot has_non_dot append].
  rewrite Nat2Z.id, get_append.
  destruct (Ascii.eqb x "."%char) eqn:Hx; [|reflexivity].
  cbn [negb orb]. rewrite <- (IH (a ++ String x "")%string).
  rewrite length_append, append_assoc. cbn [String.length append].
  f_equal. lia.
Qed.

Lemma slice_from_suffix (a t : string) :
  PyStr.slice_from (a ++ t) (Z.of_nat (String.length a)) = t.
Proof.
  unfold PyStr.slice_from. rewrite Nat2Z.id, length_append.
  replace (String.length a + String.length t - String.length a)%nat
    with (String.length t) by lia.
  apply substring_suffix.
Qed.

(** What [os.path.splitext] returns as the extension. *)
Lemma splitext_spec (p : string) :
  snd (PyStr.splitext p) =
  if has_stem p
  then match after_last "."%char p with Some t => t | None => EmptyString end
  else EmptyString.
Proof.
  unfold PyStr.splitext, PyStr._splitext, has_stem, basename.
  rewrite !rfind_spec.
  destruct (after_last "/"%char p) as [u|] eqn:Hsl.
  - destruct (after_last_split _ _ _ Hsl) as [Hp [b [-> Hb]]].
    set (pre := before_last "/"%char p) in *.
    assert (Hp' : p = ((pre ++ "/") ++ b)%string)
      by (rewrite append_assoc; exact Hp).
    destruct (after_last "."%char b) as [t|] eqn:Hd.
    + destruct (after_last_app_some "."%char (pre ++ "/")%string b t Hd)
        as [H1 H2].
      rewrite <- Hp' in H1, H2. rewrite H1, H2.
      destruct (after_last_split _ _ _ Hd) as [Hbb _].
      set (bl := before_last "."%char b) in *.
      rewrite !length_append. cbn [String.length].
      replace (Z.to_nat _) with (String.length bl) by lia.
      replace (Z.of_nat (String.length pre) + 1)
        with (Z.of_nat (String.length (pre ++ "/")%string))
        by (rewrite length_append; cbn [String.length]; lia).
      assert (Hlt : (Z.of_nat (String.length pre) <?
                     Z.of_nat (String.length pre + 1 + String.length bl)) = true)
        by (apply Z.ltb_lt; lia).
      rewrite Hlt. cbn [andb].
      assert (Hp2 : p = ((pre ++ "/") ++ bl ++ t)%string)
        by (rewrite <- Hbb; exact Hp').
      rewrite Hp2 at 1. rewrite finds_non_dot_spec.
      destruct (has_non_dot bl); [|reflexivity].
      cbn [snd].
      replace (Z.of_nat (String.length pre + 1 + String.length bl))
        with (Z.of_nat (String.length ((pre ++ "/") ++ bl)%string))
        by (rewrite !length_append; cbn [String.length]; lia).
      rewrite Hp2, <- append_assoc. apply slice_from_suffix.
    + destruct (after_last_app_none "."%char (pre ++ "/")%string b Hd)
        as [H1 H2].
      rewrite <- Hp' in H1, H2. rewrite H1.
      destruct (after_last "."%char (pre ++ "/")%string) as [t0|] eqn:H0;
        cbn [option_map].
      * rewrite (H2 t0 eq_refl).
        pose proof (before_last_length _ _ _ H0) as Hlen.
        rewrite length_append in Hlen. cbn [String.length] in Hlen.
        assert (Hlt : (Z.of_nat (String.length pre) <?
                       Z.of_nat (String.length
                                   (before_last "."%char (pre ++ "/")%string)))
                      = false) by (apply Z.ltb_ge; lia).
        rewrite Hlt. reflexivity.
      * assert (Hlt : (Z.of_nat (String.length pre) <? -1) = false)
          by (apply Z.ltb_ge; lia).
        rewrite Hlt. reflexivity.
  - destruct (after_last "."%char p) as [t|] eqn:Hd; [|reflexivity].
    destruct (after_last_split _ _ _ Hd) as [Hp _].
    set (bl := before_last "."%char p) in *.
    assert (Hlt : (-1 <? Z.of_nat (String.length bl)) = true)
      by (apply Z.ltb_lt; lia).
    rewrite Hlt. cbn [andb].
    replace (Z.to_nat _) with (String.length bl) by lia.
    change (-1 + 1) with (Z.of_nat (String.length "")).
    replace p with ("" ++ bl ++ t)%string at 1 by (symmetry; exact Hp).
    rewrite finds_non_dot_spec.
    destruct (has_non_dot bl); [|reflexivity].
    cbn [snd]. rewrite Hp at 1. apply slice_from_suffix.
Qed.

(** ** [str.lower] against the separators *)

Ltac by_cases_on_char a :=
  destruct a as [[] [] [] [] [] [] [] []]; vm_compute; reflexivity.

Lemma lower_char_dot (a : ascii) :
  Ascii.eqb (PyStr.lower_char a) "."%char = Ascii.eqb a "."%char.
Proof. by_cases_on_char a. Qed.

Lemma lower_char_slash (a : ascii) :
  Ascii.eqb (PyStr.lower_char a) "/"%char = Ascii.eqb a "/"%char.
Proof. by_cases_on_char a. Qed.

Lemma lower_char_idem (a : ascii) :
  PyStr.lower_char (PyStr.lower_char a) = PyStr.lower_char a.
Proof. by_cases_on_char a. Qed.

Lemma lower_idem (s : string) : PyStr.lower (PyStr.lower s) = PyStr.lower s.
Proof.
  induction s as [|a s IH]; simpl; [reflexivity|].
  now rewrite lower_char_idem, IH.
Qed.

Lemma lower_length (s : string) :
  String.length (PyStr.lower s) = String.length s.
Proof. induction s as [|a s IH]; simpl; [reflexivity | now rewrite IH]. Qed.

Lemma lower_append (a b : string) :
  PyStr.lower (a ++ b) = (PyStr.lower a ++ PyStr.lower b)%string.
Proof. induction a as [|x a IH]; simpl; [reflexivity | now rewrite IH]. Qed.

Section Separator.

(** A character that [lower] neither produces from another one nor changes:
    the two that [splitext] looks for. *)
Variable c : ascii.
Hypothesis lower_c : forall a, Ascii.eqb (PyStr.lower_char a) c = Ascii.eqb a c.

Lemma after_last_lower (s : string) :
  after_last c (PyStr.lower s) = option_map PyStr.lower (after_last c s).
Proof.
  induction s as [|a s IH]; [reflexivity|].
  cbn [PyStr.lower after_last]. rewrite IH, lower_c.
  destruct (after_last c s); [reflexivity|].
  destruct (Ascii.eqb a c); reflexivity.
Qed.

Lemma before_last_lower (s : string) :
  before_last c (PyStr.lower s) = PyStr.lower (before_last c s).
Proof.
  induction s as [|a s IH]; [reflexivity|].
  cbn [PyStr.lower before_last]. rewrite after_last_lower, IH, lower_c.
  destruct (after_last c s); [reflexivity|].
  destruct (Ascii.eqb a c); reflexivity.
Qed.

(** A string whose lowered form starts with its only [c] starts with its
    only [c]. *)
Lemma after_last_of_lower (e x : string) :
  PyStr.lower e = x ->
  after_last c x = Some x ->
  after_last c e = Some e /\ before_last c e = EmptyString.
Proof.
  intros He Hx. rewrite <- He, after_last_lower in Hx.
  destruct (after_last c e) as [t|] eqn:Ht; [|discriminate].
  injection Hx as Hx.
  destruct (after_last_split _ _ _ Ht) as [Hsplit _].
  assert (Hlen : String.length (before_last c e) = 0%nat).
  { apply (f_equal String.length) in Hx. rewrite !lower_length in Hx.
    apply (f_equal String.length) in Hsplit.
    rewrite length_append in Hsplit. lia. }
  destruct (before_last c e); [|discriminate].
  split; [|reflexivity]. simpl in Hsplit. now rewrite <- Hsplit.
Qed.

Lemma after_last_none_of_lower (e x : string) :
  PyStr.lower e = x -> after_last c x = None -> after_last c e = None.
Proof.
  intros He Hx. rewrite <- He, after_last_lower in Hx.
  destruct (after_last c e); [discriminate | reflexivity].
Qed.

End Separator.

Lemma has_non_dot_lower (s : string) :
  has_non_dot (PyStr.lower s) = has_non_dot s.
Proof.
  induction s as [|a s IH]; [reflexivity|].
  cbn [PyStr.lower has_non_dot]. now rewrite lower_char_dot, IH.
Qed.

Lemma has_non_dot_append (a b : string) :
  has_non_dot (a ++ b) = has_non_dot a || has_non_dot b.
Proof.
  induction a as [|x a IH]; [reflexivity|].
  cbn [append has_non_dot]. rewrite IH. now rewrite orb_assoc.
Qed.

Lemma basename_lower (s : string) :
  basename (PyStr.lower s) = PyStr.lower (basename s).
Proof.
  unfold basename. rewrite (after_last_lower _ lower_char_slash).
  destruct (after_last "/"%char s) as [[|a t]|]; reflexivity.
Qed.

Lemma has_stem_lower (s : string) : has_stem (PyStr.lower s) = has_stem s.
Proof.
  unfold has_stem.
  rewrite basename_lower, (after_last_lower _ lower_char_dot),
    (before_last_lower _ lower_char_dot), has_non_dot_lower.
  destruct (after_last "."%char (basename s)); reflexivity.
Qed.

Lemma spec_extension_lower (s : string) :
  spec_extension (PyStr.lower s) = spec_extension s.
Proof.
  unfold spec_extension. rewrite (after_last_lower _ lower_char_dot).
  destruct (after_last "."%char s); simpl; [apply lower_idem | reflexivity].
Qed.

(** ** The extension that [main] computes *)

(** [file_extension] is the specification's extension exactly when the last
    path component has something other than dots before its final dot, and
    is empty otherwise. *)
Lemma file_extension_spec (name : string) :
  file_extension name =
  if has_stem name then spec_extension name else EmptyString.
Proof.
  unfold file_extension, spec_extension. rewrite splitext_spec.
  destruct (has_stem name); [|reflexivity].
  destruct (after_last "."%char name); reflexivity.
Qed.

Lemma file_extension_lower (name : string) :
  file_extension (PyStr.lower name) = file_extension name.
Proof.
  now rewrite !file_extension_spec, has_stem_lower, spec_extension_lower.
Qed.

Lemma basename_append (r e : string) :
  after_last "/"%char e = None ->
  basename (r ++ e) = (basename r ++ e)%string.
Proof.
  intros He. unfold basename.
  destruct (after_last_app_none "/"%char r e He) as [H1 _]. rewrite H1.
  destruct (after_last "/"%char r) as [u|] eqn:Hr; [|reflexivity].
  destruct (after_last_split _ _ _ Hr) as [_ [b [-> _]]]. reflexivity.
Qed.

(** A name made of a stem and an extension [e] that is a dot followed by
    neither dot nor slash. *)
Lemma file_extension_append (r e x : string) :
  has_non_dot (basename r) = true ->
  PyStr.lower e = x ->
  after_last "."%char x = Some x ->
  after_last "/"%char x = None ->
  file_extension (r ++ e) = x.
Proof.
  intros Hr He Hdot Hslash.
  destruct (after_last_of_lower _ lower_char_dot e x He Hdot) as [Hd Hb].
  pose proof (after_last_none_of_lower _ lower_char_slash e x He Hslash) as Hs.
  rewrite file_extension_spec. unfold has_stem, spec_extension.
  rewrite (basename_append r e Hs).
  destruct (after_last_app_some "."%char (basename r) e e Hd) as [H1 H2].
  destruct (after_last_app_some "."%char r e e Hd) as [H3 _].
  rewrite H1, H2, H3, Hb, append_nil_r, Hr. exact He.
Qed.

Lemma classify_lower (name : string) :
  classify (PyStr.lower name) = classify name.
Proof. unfold classify. now rewrite file_extension_lower. Qed.

(** ** Claims about the classifier *)

(** C3, as amended.  [classify] is a function of the name alone, with one of
    four values.  A name that ends in [.txt], [.edi], [.xml] or [.json], in
    any mix of cases, gets the content type of the table, provided the last
    path component has a character other than a dot before that extension;
    every name whose extension is not in the table gets [text/plain]; names
    that differ only in case are classified alike; and the six sample names
    of the specification are classified as it says. *)
Theorem classify_lookup_table :
  (forall r e : string, has_non_dot (basename r) = true ->
     (PyStr.lower e = ".txt" -> classify (r ++ e) = "text/plain") /\
     (PyStr.lower e = ".edi" -> classify (r ++ e) = "application/edi") /\
     (PyStr.lower e = ".xml" -> classify (r ++ e) = "application/xml") /\
     (PyStr.lower e = ".json" -> classify (r ++ e) = "application/json")) /\
  (forall name : string,
     file_extension name <> ".edi" -> file_extension name <> ".xml" ->
     file_extension name <> ".json" -> classify name = "text/plain") /\
  (forall n1 n2 : string,
     PyStr.lower n1 = PyStr.lower n2 -> classify n1 = classify n2) /\
  (forall name : string,
     In (classify name)
        ["text/plain"; "application/edi"; "application/xml";
         "application/json"]) /\
  classify "a.txt" = "text/plain" /\
  classify "a.EDI" = "application/edi" /\
  classify "a.xml" = "application/xml" /\
  classify "a.json" = "application/json" /\
  classify "a" = "text/plain" /\
  classify "a.csv" = "text/plain".
Proof.
  split; [|split; [|split; [|split]]].
  - intros r e Hr. unfold classify.
    repeat split; intros He;
      rewrite (file_extension_append r e _ Hr He eq_refl eq_refl); reflexivity.
  - intros name H1 H2 H3. unfold classify, content_type_of.
    destruct (String.eqb_spec (file_extension name) ".txt"); [reflexivity|].
    destruct (String.eqb_spec (file_extension name) ".edi"); [contradiction|].
    destruct (String.eqb_spec (file_extension name) ".xml"); [contradiction|].
    destruct (String.eqb_spec (file_extension name) ".json"); [contradiction|].
    reflexivity.
  - intros n1 n2 H. rewrite <- (classify_lower n1), H. apply classify_lower.
  - intros name. unfold classify, content_type_of.
    destruct (String.eqb _ ".txt"); [simpl; tauto|].
    destruct (String.eqb _ ".edi"); [simpl; tauto|].
    destruct (String.eqb _ ".xml"); [simpl; tauto|].
    destruct (String.eqb _ ".json"); simpl; tauto.
  - repeat split; reflexivity.
Qed.

Lemma classify_lookup_table_witness :
  has_non_dot (basename "inbox/Order-17") = true /\
  PyStr.lower ".Edi" = ".edi" /\
  classify ("inbox/Order-17" ++ ".Edi") = "application/edi".
Proof.
  split; [reflexivity | split; [reflexivity|]].
  apply (proj1 classify_lookup_table "inbox/Order-17" ".Edi"); reflexivity.
Defined.

(** C3 as the specification states it fails: a name can end in [.edi] and
    be classified [text/plain]. *)
Lemma classify_dotfile_counterexample :
  (exists r : string, "inbox/.edi" = (r ++ ".edi")%string) /\
  classify "inbox/.edi" = "text/plain" /\
  classify "inbox/.edi" <> "application/edi".
Proof.
  split; [exists "inbox/"; reflexivity|].
  split; [reflexivity | discriminate].
Qed.

(** C4, as amended.  The extension that [classify] uses is the lowercased
    suffix of the name from its final dot on when that dot lies in the last
    path component (after the last slash) and something other than dots
    precedes it there; otherwise it is empty.  The content type is the
    table's entry for that extension. *)
Theorem file_extension_is_splitext :
  forall name : string,
    file_extension name =
      (if has_stem name then spec_extension name else EmptyString) /\
    classify name = content_type_of (file_extension name).
Proof.
  intros name. split; [apply file_extension_spec | reflexivity].
Qed.

(** C4 as the specification states it fails on a name that starts its last
    component with the dot, and on a name whose final dot is in a
    directory. *)
Lemma file_extension_counterexample :
  (file_extension "inbox/.edi" = EmptyString /\
   spec_extension "inbox/.edi" = ".edi" /\
   classify "inbox/.edi" <> content_type_of (spec_extension "inbox/.edi")) /\
  (file_extension "inbox/v1.0/readme" = EmptyString /\
   spec_extension "inbox/v1.0/readme" = ".0/readme").
Proof.
  repeat split; try reflexivity. discriminate.
Qed.

(** From here on [++] is the append of lists. *)
Local Open Scope list_scope.

(** ** The store *)

Lemma exists_table_find (n : string) (c : catalog) :
  exists_table n c = true <-> exists t, find_table n c = Some t.
Proof.
  unfold exists_table, find_table. induction c as [|t c IH]; simpl.
  - split; [discriminate | intros [t H]; discriminate].
  - destruct (named n t); simpl; [split; eauto | exact IH].
Qed.

Lemma find_table_none (n : string) (c : catalog) :
  exists_table n c = false -> find_table n c = None.
Proof.
  unfold exists_table, find_table. induction c as [|t c IH]; simpl; auto.
  destruct (named n t); simpl; [discriminate | exact IH].
Qed.

Lemma find_table_app (n : string) (c d : catalog) :
  find_table n (c ++ d)%list =
  match find_table n c with Some t => Some t | None => find_table n d end.
Proof.
  unfold find_table. induction c as [|t c IH]; simpl; auto.
  destruct (named n t); auto.
Qed.

Lemma count_tables_app (n : string) (c d : catalog) :
  count_tables n (c ++ d)%list = (count_tables n c + count_tables n d)%nat.
Proof. unfold count_tables. now rewrite filter_app, length_app. Qed.

Lemma count_tables_none (n : string) (c : catalog) :
  exists_table n c = false -> count_tables n c = 0%nat.
Proof.
  unfold exists_table, count_tables. induction c as [|t c IH]; simpl; auto.
  destruct (named n t); simpl; [discriminate | exact IH].
Qed.

Lemma ensured_exists (c : catalog) : exists_table "BlobAudit" (ensured c) = true.
Proof.
  unfold ensured. destruct (exists_table "BlobAudit" c) eqn:H; [exact H|].
  unfold exists_table. rewrite existsb_app. simpl. apply orb_true_r.
Qed.

Lemma ensured_rows (c : catalog) : rows (ensured c) = rows c.
Proof.
  unfold ensured, rows. destruct (exists_table "BlobAudit" c) eqn:H; auto.
  rewrite find_table_app, (find_table_none _ _ H). reflexivity.
Qed.

Lemma ensured_next_identity (c : catalog) :
  next_identity (ensured c) = next_identity c.
Proof.
  unfold ensured, next_identity.
  destruct (exists_table "BlobAudit" c) eqn:H; auto.
  rewrite find_table_app, (find_table_none _ _ H). reflexivity.
Qed.

Lemma ensured_idem (c : catalog) : ensured (ensured c) = ensured c.
Proof. unfold ensured at 1. now rewrite ensured_exists. Qed.

(** [create_table_sql] never fails, and leaves [ensured]. *)
Lemma execute_create (t : Z) (c : catalog) :
  execute create_table_sql t c = Some (ensured c, None).
Proof.
  unfold execute, ensured, create_table.
  destruct (exists_table "BlobAudit" c); reflexivity.
Qed.

(** [insert_sql] on a catalog with the table appends one row, which takes
    the next identity value. *)
Lemma insert_into_rows (row : Z -> AuditRecord) (c : catalog) :
  exists_table "BlobAudit" c = true ->
  exists c',
    insert_into "BlobAudit" row c = Some c' /\
    rows c' = (rows c ++ [row (next_identity c)])%list /\
    next_identity c' = next_identity c + 1 /\
    exists_table "BlobAudit" c' = true.
Proof.
  unfold exists_table, rows, next_identity, find_table.
  induction c as [|t c IH]; simpl; [discriminate|].
  destruct (named "BlobAudit" t) eqn:Ht; simpl.
  - intros _. eexists. split; [reflexivity|].
    simpl. unfold named in *. simpl. rewrite Ht. simpl. auto.
  - intros H. destruct (IH H) as [c' [H1 [H2 [H3 H4]]]].
    rewrite H1. simpl. eexists. split; [reflexivity|].
    simpl. rewrite Ht. simpl. auto.
Qed.

Lemma execute_insert (t : Z) (n : string) (sz : Z) (ct st : string) (c : catalog) :
  exists_table "BlobAudit" c = true ->
  exists c',
    execute (insert_sql n sz ct st) t c = Some (c', None) /\
    rows c' =
      (rows c ++ [ {| Id := next_identity c; BlobName := n; BlobSize := sz;
                      ProcessedAt := t; ContentType := ct; Status := st |} ])%list /\
    next_identity c' = next_identity c + 1 /\
    exists_table "BlobAudit" c' = true.
Proof.
  intros H. unfold execute.
  destruct (insert_into_rows
              (fun id => {| Id := id; BlobName := n; BlobSize := sz;
                            ProcessedAt := t; ContentType := ct;
                            Status := st |}) c H)
    as [c' [H1 [H2 [H3 H4]]]].
  exists c'. rewrite H1. auto.
Qed.

Lemma execute_count (t : Z) (c : catalog) :
  exists_table "BlobAudit" c = true ->
  execute count_sql t c = Some (c, Some [[Z.of_nat (List.length (rows c))]]).
Proof.
  intros H. apply exists_table_find in H. destruct H as [tb H].
  unfold execute, select_count, rows. rewrite H. reflexivity.
Qed.

(** ** Claims about the configuration *)

Ltac run_main :=
  unfold handle, main, try_suite, try_finally, try_except, finally_suite,
    except_clauses, logging_info, logging_error, bind, modify, gets, raise, ret;
  simpl.

(** C2.  When the connection string is absent, the invocation raises the
    [ValueError] of line 19, a configuration fault, and no call reaches the
    store: the spy is empty, no client object was bound, and the store is as
    it was.  This holds whatever the store would have done. *)
Theorem missing_configuration_aborts :
  forall (E : environment) (event : func.InputStream) (c : catalog),
    SQLConnectionString E = None ->
    exists e w,
      handle E event c = (Raise e, w) /\
      exn_type e = ValueError /\ kind_of e = ConfigFault /\
      spy w = [] /\ cn w = Unbound /\ cur w = Unbound /\ committed w = c.
Proof.
  intros E event c H. run_main. rewrite H. simpl.
  eexists. eexists. split; [reflexivity|]. repeat split.
Qed.

Lemma missing_configuration_aborts_witness :
  SQLConnectionString E_unset = None /\
  exists e w,
    handle E_unset invoice [] = (Raise e, w) /\
    exn_type e = ValueError /\ kind_of e = ConfigFault /\
    spy w = [] /\ cn w = Unbound /\ cur w = Unbound /\ committed w = [].
Proof.
  split; [reflexivity|].
  apply (missing_configuration_aborts E_unset invoice []). reflexivity.
Defined.

(** C9.  A connection string that is set to the empty string is treated as
    an absent one: the same [ValueError], and no call reaches the store. *)
Theorem empty_configuration_aborts :
  forall (E : environment) (event : func.InputStream) (c : catalog),
    SQLConnectionString E = Some EmptyString ->
    exists e w,
      handle E event c = (Raise e, w) /\
      exn_type e = ValueError /\ kind_of e = ConfigFault /\
      spy w = [] /\ cn w = Unbound /\ cur w = Unbound /\ committed w = c /\
      forall E', SQLConnectionString E' = None ->
                 fst (handle E' event c) = Raise e.
Proof.
  intros E event c H. run_main. rewrite H. simpl.
  eexists. eexists. split; [reflexivity|]. repeat split.
  intros E' H'. rewrite H'. reflexivity.
Qed.

Lemma empty_configuration_aborts_witness :
  SQLConnectionString E_blank = Some EmptyString /\
  exists e w,
    handle E_blank invoice [] = (Raise e, w) /\
    exn_type e = ValueError /\ kind_of e = ConfigFault /\
    spy w = [] /\ cn w = Unbound /\ cur w = Unbound /\ committed w = [] /\
    forall E', SQLConnectionString E' = None ->
               fst (handle E' invoice []) = Raise e.
Proof.
  split; [reflexivity|].
  apply (empty_configuration_aborts E_blank invoice []). reflexivity.
Defined.

(** ** Running the store client on an explicit world *)

Section Run.

Variable E : environment.
Variables (cm se : catalog) (hcn hcur : local) (rs : option (list (list Z)))
          (sp : list client_call) (lg : list log_record).

Lemma bind_unfold {A B} (m : M A) (k : A -> M B) (w : world) :
  bind m k w =
  match m w with
  | (Return a, w') => k a w'
  | (Raise e, w') => (Raise e, w')
  end.
Proof. reflexivity. Qed.

Lemma logging_info_run (msg : string) (args : list log_arg) :
  logging_info msg args (World cm se hcn hcur rs sp lg) =
  (Return tt, World cm se hcn hcur rs sp (lg ++ [info msg args])).
Proof. reflexivity. Qed.

Lemma logging_error_run (msg : string) (args : list log_arg) :
  logging_error msg args (World cm se hcn hcur rs sp lg) =
  (Return tt, World cm se hcn hcur rs sp (lg ++ [error msg args])).
Proof. reflexivity. Qed.

Lemma pyodbc_connect_run (s : site) (conn_str : string) (t : Z) :
  pyodbc_connect E s conn_str t (World cm se hcn hcur rs sp lg) =
  match fault E s with
  | Some e =>
      (Raise e, World cm se hcn hcur rs (sp ++ [Connect conn_str t]) lg)
  | None =>
      (Return tt, World cm cm Open hcur rs (sp ++ [Connect conn_str t]) lg)
  end.
Proof.
  unfold pyodbc_connect, call, bind, modify, raise, ret. simpl.
  destruct (fault E s); reflexivity.
Qed.

Lemma cn_cursor_run (s : site) :
  cn_cursor E s (World cm se Open hcur rs sp lg) =
  match fault E s with
  | Some e => (Raise e, World cm se Open hcur rs (sp ++ [Cursor]) lg)
  | None => (Return tt, World cm se Open Open rs (sp ++ [Cursor]) lg)
  end.
Proof.
  unfold cn_cursor, require, call, bind, modify, gets, raise, ret. simpl.
  destruct (fault E s); reflexivity.
Qed.

Lemma cur_execute_run (s : site) (st : statement) :
  cur_execute E s st (World cm se hcn Open rs sp lg) =
  match fault E s with
  | Some e => (Raise e, World cm se hcn Open rs (sp ++ [Execute st]) lg)
  | None =>
      match execute st (now E) se with
      | Some (c', rs') =>
          (Return tt, World cm c' hcn Open rs' (sp ++ [Execute st]) lg)
      | None =>
          (Raise rejected_statement,
           World cm se hcn Open rs (sp ++ [Execute st]) lg)
      end
  end.
Proof.
  unfold cur_execute, require, call, bind, modify, gets, raise, ret.
  cbn -[execute]. destruct (fault E s); [reflexivity|].
  cbn -[execute]. destruct (execute st (now E) se) as [[c' rs']|]; reflexivity.
Qed.

Lemma cn_commit_run (s : site) :
  cn_commit E s (World cm se Open hcur rs sp lg) =
  match fault E s with
  | Some e => (Raise e, World cm se Open hcur rs (sp ++ [Commit]) lg)
  | None => (Return tt, World se se Open hcur rs (sp ++ [Commit]) lg)
  end.
Proof.
  unfold cn_commit, require, call, bind, modify, gets, raise, ret. simpl.
  destruct (fault E s); reflexivity.
Qed.

Lemma cur_fetchone_run (s : site) (row : list Z) (rest : list (list Z)) :
  cur_fetchone E s (World cm se hcn Open (Some (row :: rest)) sp lg) =
  match fault E s with
  | Some e =>
      (Raise e,
       World cm se hcn Open (Some (row :: rest)) (sp ++ [Fetchone]) lg)
  | None =>
      (Return (Some row),
       World cm se hcn Open (Some rest) (sp ++ [Fetchone]) lg)
  end.
Proof.
  unfold cur_fetchone, require, call, bind, modify, gets, raise, ret. simpl.
  destruct (fault E s); reflexivity.
Qed.

Lemma cur_close_run (s : site) :
  cur_close E s (World cm se hcn hcur rs sp lg) =
  match hcur with
  | Open =>
      match fault E s with
      | Some e =>
          (Raise e, World cm se hcn Closed None (sp ++ [CursorClose]) lg)
      | None =>
          (Return tt, World cm se hcn Closed None (sp ++ [CursorClose]) lg)
      end
  | _ => (Raise closed_cursor, World cm se hcn hcur rs sp lg)
  end.
Proof.
  unfold cur_close, require, bind, modify, gets, raise, ret. simpl.
  destruct hcur; try reflexivity. simpl. destruct (fault E s); reflexivity.
Qed.

Lemma cn_close_run (s : site) :
  cn_close E s (World cm se hcn hcur rs sp lg) =
  match hcn with
  | Open =>
      match fault E s with
      | Some e =>
          (Raise e, World cm se Open hcur rs (sp ++ [ConnectionClose]) lg)
      | None =>
          (Return tt,
           World cm cm Closed
             (match hcur with Unbound => Unbound | _ => Closed end)
             None (sp ++ [ConnectionClose]) lg)
      end
  | _ => (Raise closed_connection, World cm se hcn hcur rs sp lg)
  end.
Proof.
  unfold cn_close, require, call, bind, modify, gets, raise, ret. simpl.
  destruct hcn; try reflexivity. simpl. destruct (fault E s); reflexivity.
Qed.

End Run.

Lemma try_except_unfold {A} (m : M A) (h : exn -> M A) (w : world) :
  try_except m h w =
  match m w with
  | (Return a, w') => (Return a, w')
  | (Raise e, w') => h e w'
  end.
Proof. reflexivity. Qed.

Lemma try_finally_unfold {A} (m : M A) (f : M unit) (w : world) :
  try_finally m f w =
  match m w with
  | (r, w1) =>
      match f w1 with
      | (Return _, w2) => (r, w2)
      | (Raise e, w2) => (Raise e, w2)
      end
  end.
Proof. reflexivity. Qed.

Lemma gets_run {A} (f : world -> A) (w : world) : gets f w = (Return (f w), w).
Proof. reflexivity. Qed.

Lemma ret_run {A} (a : A) (w : world) : ret a w = (Return a, w).
Proof. reflexivity. Qed.

Lemma raise_run {A} (e : exn) (w : world) : @raise A e w = (Raise e, w).
Proof. reflexivity. Qed.

Ltac run_step :=
  first
    [ rewrite bind_unfold
    | rewrite try_except_unfold
    | rewrite logging_info_run
    | rewrite logging_error_run
    | rewrite pyodbc_connect_run
    | rewrite cn_cursor_run
    | rewrite cur_execute_run
    | rewrite cn_commit_run
    | rewrite cur_fetchone_run
    | rewrite cur_close_run
    | rewrite cn_close_run
    | rewrite gets_run
    | rewrite ret_run
    | rewrite raise_run ].

Ltac run_with tac :=
  repeat (first [ tac | run_step ];
          cbv beta iota;
          cbn [committed session cn cur resultset spy logs bound getitem0]).

(** ** The store after an invocation *)

Lemma recorded_spec (E : environment) (event : func.InputStream) (c : catalog) :
  execute (insert_sql (func.name event) (func.length event)
             (classify (func.name event)) "Processed") (now E) (ensured c)
    = Some (recorded E event c, None) /\
  rows (recorded E event c) = (rows c ++ [audit_row E event c])%list /\
  next_identity (recorded E event c) = next_identity c + 1 /\
  exists_table "BlobAudit" (recorded E event c) = true.
Proof.
  destruct (execute_insert (now E) (func.name event) (func.length event)
              (classify (func.name event)) "Processed" (ensured c)
              (ensured_exists c)) as [c2 [Hi [Hrows [Hid Hex]]]].
  unfold recorded. rewrite Hi.
  rewrite ensured_rows, ensured_next_identity in *.
  repeat split; assumption.
Qed.

(** The suite of the [try] on the path without a fault. *)
Lemma try_suite_returns (E : environment) (event : func.InputStream)
      (c : catalog) (sp : list client_call) (lg : list log_record)
      (a : ascii) (s : string) :
  SQLConnectionString E = Some (String a s) ->
  reachable E ->
  try_suite E event (World c c Unbound Unbound None sp lg) =
  (Return tt,
   World (recorded E event c) (recorded E event c) Closed Closed None
     (sp ++ [Connect (String a s) 30] ++ [Cursor]
         ++ [Execute create_table_sql] ++ [Commit]
         ++ [Execute (insert_sql (func.name event) (func.length event)
                        (classify (func.name event)) "Processed")]
         ++ [Commit] ++ [Execute count_sql] ++ [Fetchone]
         ++ [CursorClose] ++ [ConnectionClose])
     (lg ++ [info "Connecting to SQL database..." []]
         ++ [info "Connected to SQL successfully." []]
         ++ [info "BlobAudit table ready" []]
         ++ [info "Inserted audit record for blob: %s" [S_ (func.name event)]]
         ++ [info "Total files processed so far: %d"
               [D_ (Z.of_nat (List.length (rows c)) + 1)]]
         ++ [info "=== BlobTriggerFunction COMPLETED SUCCESSFULLY ===" []]))%list.
Proof.
  intros Hs HR. unfold reachable in HR.
  destruct (recorded_spec E event c) as [Hi [Hrows [_ Hex]]].
  unfold try_suite. rewrite Hs.
  unfold ensure, recordAudit, countAll.
  run_with ltac:(first [ rewrite HR | rewrite execute_create | rewrite Hi
                       | rewrite (execute_count _ _ Hex) ]).
  rewrite Hrows, length_app, Nat2Z.inj_add. cbn [List.length Z.of_nat Pos.of_succ_nat].
  rewrite <- !app_assoc. reflexivity.
Qed.

(** The world in which the [try] of [main] starts, for an invocation over a
    store in state [c]. *)
Lemma started_fresh (event : func.InputStream) (c : catalog) :
  started event (fresh c) =
  World c c Unbound Unbound None []
    [ info "=== BlobTriggerFunction STARTED ===" [];
      info "Blob name: %s, size=%d bytes"
        [S_ (func.name event); D_ (func.length event)];
      info "Read blob content: %d bytes"
        [D_ (Z.of_nat (List.length (func.read event)))] ].
Proof. reflexivity. Qed.

Lemma main_unfold (E : environment) (event : func.InputStream) (w : world) :
  main E event w =
  try_finally (try_except (try_suite E event) except_clauses)
    (finally_suite E) (started event w).
Proof. reflexivity. Qed.

(** The [except] clauses log and re-raise what they were given. *)
Lemma except_clauses_run (e : exn) (w : world) :
  exists l,
    except_clauses e w =
    (Raise e,
     World (committed w) (session w) (cn w) (cur w) (resultset w) (spy w)
       (logs w ++ l)).
Proof.
  destruct w as [cm se hcn hcur rs sp lg].
  unfold except_clauses.
  destruct (is_pyodbc_Error e); [|destruct (is_Exception e)].
  - eexists. run_with fail. rewrite <- app_assoc. reflexivity.
  - eexists. run_with fail. rewrite <- app_assoc. reflexivity.
  - exists []. run_with fail. now rewrite app_nil_r.
Qed.

(** The [finally] clause returns normally whichever of its calls fails; it
    writes nothing to the store and logs nothing. *)
Lemma finally_suite_frame (E : environment) (w : world) :
  exists w' l,
    finally_suite E w = (Return tt, w') /\
    committed w' = committed w /\ logs w' = logs w /\
    spy w' = (spy w ++ l)%list.
Proof.
  destruct w as [cm se hcn hcur rs sp lg]. unfold finally_suite.
  destruct hcur, hcn;
    run_with ltac:(idtac;
                   match goal with
                   | |- context [fault E ?s] => destruct (fault E s)
                   end);
    eexists; eexists;
    (split; [reflexivity|]); cbn [committed logs spy];
    (split; [reflexivity|]); (split; [reflexivity|]);
    first [ rewrite <- app_assoc; reflexivity
          | reflexivity
          | symmetry; apply app_nil_r ].
Qed.

(** [main] ends the way the suite of its [try] ends, after the [finally]
    clause has run; the store is as the suite left it. *)
Lemma main_outcome (E : environment) (event : func.InputStream) (w0 : world)
      (r : result unit) (w1 : world) :
  try_suite E event (started event w0) = (r, w1) ->
  exists w2 w3,
    (match r with
     | Return _ => w2 = w1
     | Raise e => except_clauses e w1 = (Raise e, w2)
     end) /\
    finally_suite E w2 = (Return tt, w3) /\
    main E event w0 = (r, w3) /\
    committed w3 = committed w1 /\
    (exists l, logs w3 = (logs w1 ++ l)%list) /\
    (exists l, spy w3 = (spy w1 ++ l)%list).
Proof.
  intros H. rewrite main_unfold, try_finally_unfold, try_except_unfold, H.
  destruct r as [[]|e].
  - destruct (finally_suite_frame E w1) as [w3 [l [Hf [Hc [Hl Hs]]]]].
    exists w1, w3. rewrite Hf.
    repeat split; auto. exists []. now rewrite app_nil_r. eauto.
  - destruct (except_clauses_run e w1) as [l He]. rewrite He.
    match type of He with _ = (_, ?w) => set (w2 := w) in * end.
    destruct (finally_suite_frame E w2) as [w3 [l' [Hf [Hc [Hl Hs]]]]].
    exists w2, w3. rewrite Hf.
    repeat split; auto. exists l. rewrite Hl. reflexivity.
    exists l'. rewrite Hs. reflexivity.
Qed.

Lemma configured_inv (E : environment) :
  configured E = true ->
  exists a s, SQLConnectionString E = Some (String a s).
Proof.
  unfold configured. destruct (SQLConnectionString E) as [[|a s]|];
    try discriminate. eauto.
Qed.

(** After a suite that closed both objects, the [finally] clause fails on
    its first close (the cursor is closed already), swallows that, and
    changes nothing. *)
Lemma finally_suite_closed (E : environment) (cm se : catalog)
      (rs : option (list (list Z))) (sp : list client_call)
      (lg : list log_record) :
  finally_suite E (World cm se Closed Closed rs sp lg) =
  (Return tt, World cm se Closed Closed rs sp lg).
Proof. unfold finally_suite. run_with fail. reflexivity. Qed.

(** An invocation with the connection string set, over a store that fails
    no call. *)
Lemma handle_returns (E : environment) (event : func.InputStream) (c : catalog) :
  configured E = true ->
  reachable E ->
  exists w,
    handle E event c = (Return tt, w) /\
    committed w = recorded E event c /\
    released w = true /\
    In (info "Total files processed so far: %d"
          [D_ (Z.of_nat (List.length (rows c)) + 1)]) (logs w).
Proof.
  intros HC HR. destruct (configured_inv E HC) as [a [s Hs]].
  pose proof (try_suite_returns E event c [] (logs (started event (fresh c)))
                a s Hs HR) as Ht.
  change (World c c Unbound Unbound None [] (logs (started event (fresh c))))
    with (started event (fresh c)) in Ht.
  destruct (main_outcome _ _ _ _ _ Ht) as [w2 [w3 [-> [Hf [Hm _]]]]].
  rewrite finally_suite_closed in Hf. injection Hf as <-.
  eexists. split; [exact Hm|].
  cbn [committed cn cur logs released]. repeat split.
  simpl. tauto.
Qed.

(** C1.  With the connection string set and a store that fails no call, the
    invocation returns normally and leaves in the store the rows it found
    followed by exactly one new row: the event's name and length, the
    content type that [classify] gives the name, and status [Processed]. *)
Theorem handle_records_the_event :
  forall (E : environment) (event : func.InputStream) (c : catalog),
    configured E = true ->
    reachable E ->
    exists w,
      handle E event c = (Return tt, w) /\
      rows (committed w) = (rows c ++ [audit_row E event c])%list /\
      BlobName (audit_row E event c) = func.name event /\
      BlobSize (audit_row E event c) = func.length event /\
      ContentType (audit_row E event c) = classify (func.name event) /\
      Status (audit_row E event c) = "Processed".
Proof.
  intros E event c HC HR.
  destruct (handle_returns E event c HC HR) as [w [Hw [Hc _]]].
  destruct (recorded_spec E event c) as [_ [Hrows _]].
  exists w. rewrite Hc, Hrows. repeat split. exact Hw.
Qed.

Lemma handle_records_the_event_witness :
  configured E_ok = true /\ reachable E_ok /\
  exists w,
    handle E_ok invoice [] = (Return tt, w) /\
    rows (committed w) =
      [ {| Id := 1; BlobName := "invoice-2024.edi"; BlobSize := 4096;
           ProcessedAt := 1700000000; ContentType := "application/edi";
           Status := "Processed" |} ].
Proof.
  split; [reflexivity | split; [intros s; reflexivity|]].
  destruct (handle_records_the_event E_ok invoice [] eq_refl
              (fun s => eq_refl)) as [w [H1 [H2 _]]].
  exists w. split; [exact H1 | exact H2].
Defined.

(** ** Claims about the schema *)

Lemma ensure_run (E : environment) (cm se : catalog)
      (rs : option (list (list Z))) (sp : list client_call)
      (lg : list log_record) :
  fault E at_execute_create = None ->
  fault E at_commit_create = None ->
  ensure E (World cm se Open Open rs sp lg) =
  (Return tt,
   World (ensured se) (ensured se) Open Open None
     ((sp ++ [Execute create_table_sql]) ++ [Commit])
     (lg ++ [info "BlobAudit table ready" []])).
Proof.
  intros H1 H2. unfold ensure.
  run_with ltac:(first [ rewrite H1 | rewrite H2 | rewrite execute_create ]).
  reflexivity.
Qed.

Lemma iterate_ensure (E : environment) (n : nat) :
  fault E at_execute_create = None ->
  fault E at_commit_create = None ->
  forall cm se rs sp lg,
  exists rs' sp' lg',
    iterate (S n) (ensure E) (World cm se Open Open rs sp lg) =
    (Return tt, World (ensured se) (ensured se) Open Open rs' sp' lg').
Proof.
  intros H1 H2. induction n as [|n IH]; intros cm se rs sp lg.
  - cbn [iterate]. rewrite bind_unfold, (ensure_run E _ _ _ _ _ H1 H2).
    cbv beta iota. rewrite ret_run. eauto.
  - change (iterate (S (S n)) (ensure E))
      with (bind (ensure E) (fun _ => iterate (S n) (ensure E))).
    rewrite bind_unfold, (ensure_run E _ _ _ _ _ H1 H2). cbv beta iota.
    destruct (IH (ensured se) (ensured se) None
                ((sp ++ [Execute create_table_sql]) ++ [Commit])
                (lg ++ [info "BlobAudit table ready" []]))
      as [rs' [sp' [lg' H]]].
    rewrite H, ensured_idem. eauto.
Qed.

(** C5.  On an open connection whose store has no [BlobAudit] table and
    fails neither the statement nor the commit, running the schema step [N]
    times, for any [N >= 1], returns normally; the store then holds the
    catalog it had with one table added, [BlobAudit], exactly once and empty;
    its columns are, in this order, [Id] (INT, identity, primary key),
    [BlobName] (NVARCHAR(500)), [BlobSize] (BIGINT), [ProcessedAt] (DATETIME,
    default GETDATE()), [ContentType] (NVARCHAR(100)) and [Status]
    (NVARCHAR(50), default 'Processed'); and it is the store that the first
    run alone leaves. *)
Theorem ensure_idempotent :
  forall (E : environment) (w : world) (N : nat),
    fault E at_execute_create = None ->
    fault E at_commit_create = None ->
    cn w = Open -> cur w = Open ->
    exists_table "BlobAudit" (session w) = false ->
    (1 <= N)%nat ->
    exists w',
      iterate N (ensure E) w = (Return tt, w') /\
      committed w' = (session w ++ [new_BlobAudit])%list /\
      count_tables "BlobAudit" (committed w') = 1%nat /\
      find_table "BlobAudit" (committed w') = Some new_BlobAudit /\
      (exists t,
         find_table "BlobAudit" (committed w') = Some t /\
         tbl_rows t = [] /\
         tbl_identity t = 1 /\
         tbl_columns t =
         [ {| col_name := "Id"; col_type := INT; col_identity := true;
              col_primary_key := true; col_default := None |};
           {| col_name := "BlobName"; col_type := NVARCHAR 500;
              col_identity := false; col_primary_key := false;
              col_default := None |};
           {| col_name := "BlobSize"; col_type := BIGINT;
              col_identity := false; col_primary_key := false;
              col_default := None |};
           {| col_name := "ProcessedAt"; col_type := DATETIME;
              col_identity := false; col_primary_key := false;
              col_default := Some GETDATE |};
           {| col_name := "ContentType"; col_type := NVARCHAR 100;
              col_identity := false; col_primary_key := false;
              col_default := None |};
           {| col_name := "Status"; col_type := NVARCHAR 50;
              col_identity := false; col_primary_key := false;
              col_default := Some (Literal "Processed") |} ]) /\
      committed w' = committed (snd (ensure E w)).
Proof.
  intros E [cm se hcn hcur rs sp lg] N H1 H2 Hcn Hcur Hno HN.
  cbn [cn cur session] in *. subst hcn hcur.
  destruct N as [|n]; [lia|].
  destruct (iterate_ensure E n H1 H2 cm se rs sp lg) as [rs' [sp' [lg' H]]].
  eexists. split; [exact H|]. cbn [committed].
  rewrite (ensure_run E _ _ _ _ _ H1 H2). cbn [snd committed].
  unfold ensured. rewrite Hno.
  repeat split.
  - rewrite count_tables_app, (count_tables_none _ _ Hno). reflexivity.
  - rewrite find_table_app, (find_table_none _ _ Hno). reflexivity.
  - exists new_BlobAudit.
    rewrite find_table_app, (find_table_none _ _ Hno). repeat split.
Qed.

Lemma ensure_idempotent_witness :
  exists w',
    iterate 3 (ensure E_ok) (World [] [] Open Open None [] []) = (Return tt, w') /\
    count_tables "BlobAudit" (committed w') = 1%nat /\
    committed w' =
    [ {| tbl_name := "BlobAudit";
         tbl_columns :=
           [ {| col_name := "Id"; col_type := INT; col_identity := true;
                col_primary_key := true; col_default := None |};
             {| col_name := "BlobName"; col_type := NVARCHAR 500;
                col_identity := false; col_primary_key := false;
                col_default := None |};
             {| col_name := "BlobSize"; col_type := BIGINT;
                col_identity := false; col_primary_key := false;
                col_default := None |};
             {| col_name := "ProcessedAt"; col_type := DATETIME;
                col_identity := false; col_primary_key := false;
                col_default := Some GETDATE |};
             {| col_name := "ContentType"; col_type := NVARCHAR 100;
                col_identity := false; col_primary_key := false;
                col_default := None |};
             {| col_name := "Status"; col_type := NVARCHAR 50;
                col_identity := false; col_primary_key := false;
                col_default := Some (Literal "Processed") |} ];
         tbl_rows := [];
         tbl_identity := 1 |} ].
Proof.
  destruct (ensure_idempotent E_ok (World [] [] Open Open None [] []) 3
              eq_refl eq_refl eq_refl eq_refl eq_refl)
    as [w' [H1 [H2 [H3 _]]]]; [lia|].
  exists w'. repeat split; assumption.
Defined.

(** ** Claims about the running total *)

Lemma countAll_run (E : environment) (cm se : catalog) (hcn : local)
      (rs : option (list (list Z))) (sp : list client_call)
      (lg : list log_record) :
  fault E at_execute_count = None ->
  fault E at_fetchone = None ->
  exists_table "BlobAudit" se = true ->
  countAll E (World cm se hcn Open rs sp lg) =
  (Return (Z.of_nat (List.length (rows se))),
   World cm se hcn Open (Some [])
     ((sp ++ [Execute count_sql]) ++ [Fetchone]) lg).
Proof.
  intros H1 H2 Hex. unfold countAll.
  run_with ltac:(first [ rewrite H1 | rewrite H2
                       | rewrite (execute_count _ _ Hex) ]).
  reflexivity.
Qed.

(** C8.  The count step returns the number of rows of [BlobAudit] and leaves
    the store, the session and both client objects as they were.  Two
    invocations in a row, over a store that starts without the table and
    fails no call, leave two rows whose [Id] are 1 and 2, so distinct and
    positive, and the second invocation reports a total of 2. *)
Theorem countAll_reads_the_total :
  (forall (E : environment) (w : world),
     cur w = Open ->
     fault E at_execute_count = None ->
     fault E at_fetchone = None ->
     exists_table "BlobAudit" (session w) = true ->
     exists w',
       countAll E w = (Return (Z.of_nat (List.length (rows (session w)))), w') /\
       committed w' = committed w /\ session w' = session w /\
       cn w' = cn w /\ cur w' = cur w) /\
  (forall (E1 E2 : environment) (b1 b2 : func.InputStream) (c : catalog),
     configured E1 = true -> reachable E1 ->
     configured E2 = true -> reachable E2 ->
     exists_table "BlobAudit" c = false ->
     exists w1 w2 r1 r2,
       handle E1 b1 c = (Return tt, w1) /\
       handle E2 b2 (committed w1) = (Return tt, w2) /\
       rows (committed w2) = [r1; r2] /\
       BlobName r1 = func.name b1 /\ BlobName r2 = func.name b2 /\
       Id r1 = 1 /\ Id r2 = 2 /\
       Id r1 <> Id r2 /\ 0 < Id r1 /\ 0 < Id r2 /\
       In (info "Total files processed so far: %d" [D_ 2]) (logs w2)).
Proof.
  split.
  - intros E [cm se hcn hcur rs sp lg] Hcur H1 H2 Hex.
    cbn [cur session] in *. subst hcur.
    eexists. split; [apply (countAll_run E _ _ _ _ _ _ H1 H2 Hex)|].
    repeat split.
  - intros E1 E2 b1 b2 c HC1 HR1 HC2 HR2 Hno.
    destruct (handle_returns E1 b1 c HC1 HR1) as [w1 [Hw1 [Hc1 _]]].
    destruct (handle_returns E2 b2 (recorded E1 b1 c) HC2 HR2)
      as [w2 [Hw2 [Hc2 [_ Hlog]]]].
    destruct (recorded_spec E1 b1 c) as [_ [Hrows1 [Hid1 _]]].
    destruct (recorded_spec E2 b2 (recorded E1 b1 c)) as [_ [Hrows2 _]].
    assert (Hr0 : rows c = []) by (unfold rows; now rewrite (find_table_none _ _ Hno)).
    assert (Hi0 : next_identity c = 1)
      by (unfold next_identity; now rewrite (find_table_none _ _ Hno)).
    rewrite Hr0 in Hrows1. cbn [app] in Hrows1.
    rewrite Hrows1 in Hrows2, Hlog. cbn [app List.length] in Hrows2, Hlog.
    exists w1, w2, (audit_row E1 b1 c), (audit_row E2 b2 (recorded E1 b1 c)).
    rewrite Hc1, Hc2. cbn [audit_row Id BlobName]. rewrite Hid1, Hi0.
    repeat split; try assumption; try lia; try reflexivity.
Qed.

Lemma countAll_reads_the_total_witness :
  exists w1 w2 r1 r2,
    handle E_ok invoice [] = (Return tt, w1) /\
    handle E_ok orders (committed w1) = (Return tt, w2) /\
    rows (committed w2) = [r1; r2] /\
    BlobName r1 = "invoice-2024.edi" /\ BlobName r2 = "inbox/orders.XML" /\
    Id r1 = 1 /\ Id r2 = 2.
Proof.
  destruct (proj2 countAll_reads_the_total E_ok E_ok invoice orders []
              eq_refl (fun s => eq_refl) eq_refl (fun s => eq_refl) eq_refl)
    as [w1 [w2 [r1 [r2 [H1 [H2 [H3 [H4 [H5 [H6 [H7 _]]]]]]]]]]].
  exists w1, w2, r1, r2. repeat split; assumption.
Defined.

(** ** Claims about faults *)

(** The suite of the [try] never reaches the two call sites of the [finally]
    clause: what it does is decided by the rest of the environment. *)
Lemma try_suite_ext (E E' : environment) (event : func.InputStream) :
  SQLConnectionString E' = SQLConnectionString E ->
  now E' = now E ->
  (forall s, s <> at_finally_cur_close -> s <> at_finally_cn_close ->
             fault E' s = fault E s) ->
  try_suite E' event = try_suite E event.
Proof.
  destruct E as [S f n], E' as [S' f' n']. cbn [SQLConnectionString now fault].
  intros -> -> H.
  unfold try_suite, ensure, recordAudit, countAll, pyodbc_connect, cn_cursor,
    cur_execute, cn_commit, cur_fetchone, cur_close, cn_close, call.
  cbn [SQLConnectionString now fault].
  rewrite !H by discriminate. reflexivity.
Qed.

(** C6.  [main] ends exactly as the suite of its [try] ends.  When the suite
    raises [e], whatever its class, the [except] clauses re-raise [e], the
    [finally] clause (the cleanup, lines 84-92) then runs and returns
    normally, and [e] is what the caller gets.  Failures of the calls made in
    the [finally] clause change nothing of that: two environments that differ
    only there give the same outcome.  (The closes of lines 71-72 belong to
    the suite: when one of them fails, that is a fault of the invocation and
    it is re-raised like any other.) *)
Theorem faults_reach_the_caller :
  forall (E : environment) (event : func.InputStream) (w0 : world),
    fst (main E event w0) = fst (try_suite E event (started event w0)) /\
    (forall (e : exn) (w1 : world),
       try_suite E event (started event w0) = (Raise e, w1) ->
       exists w2 w3,
         except_clauses e w1 = (Raise e, w2) /\
         finally_suite E w2 = (Return tt, w3) /\
         main E event w0 = (Raise e, w3)) /\
    (forall E' : environment,
       SQLConnectionString E' = SQLConnectionString E ->
       now E' = now E ->
       (forall s, s <> at_finally_cur_close -> s <> at_finally_cn_close ->
                  fault E' s = fault E s) ->
       fst (main E' event w0) = fst (main E event w0)).
Proof.
  intros E event w0.
  assert (Hfst : forall E0, fst (main E0 event w0) =
                            fst (try_suite E0 event (started event w0))).
  { intros E0.
    destruct (try_suite E0 event (started event w0)) as [r w1] eqn:Ht.
    destruct (main_outcome _ _ _ _ _ Ht) as [w2 [w3 [_ [_ [Hm _]]]]].
    now rewrite Hm. }
  split; [apply Hfst | split].
  - intros e w1 Ht.
    destruct (main_outcome _ _ _ _ _ Ht) as [w2 [w3 [H2 [Hf [Hm _]]]]].
    exists w2, w3. auto.
  - intros E' HS Hn Hf.
    now rewrite !Hfst, (try_suite_ext E E' event HS Hn Hf).
Qed.

Lemma faults_reach_the_caller_witness :
  fst (main E_link_lost invoice (fresh [])) = Raise link_failure.
Proof.
  destruct (try_suite E_link_lost invoice (started invoice (fresh [])))
    as [r w1] eqn:Ht.
  assert (Hr : r = Raise link_failure).
  { apply (f_equal fst) in Ht. vm_compute in Ht. now symmetry. }
  subst r.
  destruct (proj1 (proj2 (faults_reach_the_caller E_link_lost invoice (fresh [])))
              link_failure w1 Ht)
    as [w2 [w3 [_ [_ H]]]].
  rewrite H. reflexivity.
Defined.

(** C7, at an input where the code breaks it.  The link drops while the
    insert is sent, so that call and every later one fails.  [main] raises
    the store's error, but in the [finally] clause the failing [cur.close()]
    leaves the [try] before [cn.close()] is reached: the connection that
    line 24 opened is still open when the error reaches the caller, and no
    close of it was ever attempted. *)
Theorem connection_left_open_when_cursor_close_fails :
  fst (handle E_link_lost invoice []) = Raise link_failure /\
  cn (snd (handle E_link_lost invoice [])) = Open /\
  released (snd (handle E_link_lost invoice [])) = false /\
  In (Connect "Server=tcp:audit;Database=edi" 30)
     (spy (snd (handle E_link_lost invoice []))) /\
  In CursorClose (spy (snd (handle E_link_lost invoice []))) /\
  ~ In ConnectionClose (spy (snd (handle E_link_lost invoice []))).
Proof.
  vm_compute. repeat split; auto 20.
  intuition discriminate.
Qed.

(** When none of the four closes fails, both client objects are released on
    every way out of [main], wherever the first failure is. *)
Lemma handle_releases_when_closes_succeed
      (E : environment) (event : func.InputStream) (c : catalog) :
  fault E at_cur_close = None ->
  fault E at_cn_close = None ->
  fault E at_finally_cur_close = None ->
  fault E at_finally_cn_close = None ->
  released (snd (handle E event c)) = true.
Proof.
  intros H1 H2 H3 H4.
  destruct (recorded_spec E event c) as [Hi [_ [_ Hex]]].
  unfold handle. rewrite main_unfold, try_finally_unfold, try_except_unfold.
  rewrite started_fresh. unfold try_suite, ensure, recordAudit, countAll.
  destruct (SQLConnectionString E) as [[|a s]|];
    run_with ltac:(first
      [ rewrite H1 | rewrite H2 | rewrite H3 | rewrite H4
      | rewrite execute_create | rewrite Hi | rewrite (execute_count _ _ Hex)
      | match goal with
        | |- context [except_clauses ?e ?w] =>
            let l := fresh "l" in let He := fresh "He" in
            destruct (except_clauses_run e w) as [l He]; rewrite He; clear He
        end
      | progress unfold finally_suite
      | match goal with
        | |- context [fault E ?s] => destruct (fault E s)
        end ]);
    reflexivity.
Qed.

(** C10.  When the connection and the schema step succeed and the insert
    step then fails, at the statement or at its commit, [main] raises that
    error, and the store holds [BlobAudit] durably with the rows it had
    before: the schema step was committed before the insert was sent (the
    calls reached the store in that order), and no row was added for the
    event. *)
Theorem schema_survives_failed_insert :
  forall (E : environment) (event : func.InputStream) (c : catalog) (e : exn),
    configured E = true ->
    fault E at_connect = None -> fault E at_cursor = None ->
    fault E at_execute_create = None -> fault E at_commit_create = None ->
    (fault E at_execute_insert = Some e \/
     (fault E at_execute_insert = None /\ fault E at_commit_insert = Some e)) ->
    exists w,
      handle E event c = (Raise e, w) /\
      committed w = ensured c /\
      exists_table "BlobAudit" (committed w) = true /\
      rows (committed w) = rows c /\
      exists conn_str l,
        spy w =
        [ Connect conn_str 30; Cursor; Execute create_table_sql; Commit;
          Execute (insert_sql (func.name event) (func.length event)
                     (classify (func.name event)) "Processed") ] ++ l.
Proof.
  intros E event c e HC H1 H2 H3 H4 Hins.
  destruct (configured_inv E HC) as [a [s Hs]].
  destruct (recorded_spec E event c) as [Hi _].
  assert (Ht : exists w1 l1,
             try_suite E event (started event (fresh c)) = (Raise e, w1) /\
             committed w1 = ensured c /\
             spy w1 =
             [ Connect (String a s) 30; Cursor; Execute create_table_sql;
               Commit;
               Execute (insert_sql (func.name event) (func.length event)
                          (classify (func.name event)) "Processed") ] ++ l1).
  { rewrite started_fresh. unfold try_suite, ensure, recordAudit.
    rewrite Hs.
    destruct Hins as [H5 | [H5 H6]];
      run_with ltac:(first
        [ rewrite H1 | rewrite H2 | rewrite H3 | rewrite H4 | rewrite H5
        | rewrite H6 | rewrite execute_create | rewrite Hi ]).
    - eexists. exists []. repeat split.
    - eexists. exists [Commit]. repeat split. }
  destruct Ht as [w1 [l1 [Ht [Hc Hspy]]]].
  destruct (main_outcome _ _ _ _ _ Ht)
    as [w2 [w3 [_ [_ [Hm [Hc3 [_ [l3 Hs3]]]]]]]].
  exists w3. unfold handle. rewrite Hm, Hc3, Hc.
  rewrite ensured_exists, ensured_rows. repeat split.
  exists (String a s), (l1 ++ l3). rewrite Hs3, Hspy, <- app_assoc. reflexivity.
Qed.

Lemma schema_survives_failed_insert_witness :
  exists w,
    handle E_link_lost invoice [] = (Raise link_failure, w) /\
    committed w = [new_BlobAudit] /\
    exists_table "BlobAudit" (committed w) = true /\
    rows (committed w) = [].
Proof.
  destruct (schema_survives_failed_insert E_link_lost invoice [] link_failure
              eq_refl eq_refl eq_refl eq_refl eq_refl (or_introl eq_refl))
    as [w [H1 [H2 [H3 [H4 _]]]]].
  exists w. repeat split; assumption.
Defined.

(* ================================================================== *)
(** * Further properties *)

(** ** [os.path.splitext] and the classifier *)

Lemma substring_cut (p : string) (n : nat) :
  (substring 0 n p ++ substring n (String.length p - n) p)%string = p.
Proof.
  revert n. induction p as [|a p IH]; intros n.
  - destruct n; reflexivity.
  - destruct n as [|n].
    + cbn [substring append]. cbn [String.length Nat.sub].
      now rewrite substring_all.
    + cbn [substring append String.length Nat.sub]. now rewrite IH.
Qed.

(** X1.  [os.path.splitext] cuts the name in two and loses nothing: the root
    followed by the extension is the name. *)
Theorem splitext_root_ext (p : string) :
  (fst (PyStr.splitext p) ++ snd (PyStr.splitext p))%string = p.
Proof.
  unfold PyStr.splitext, PyStr._splitext.
  match goal with |- context [if ?b then _ else _] => destruct b end;
    cbn [fst snd].
  - apply substring_cut.
  - apply append_nil_r.
Qed.

(** The last path component has no slash, and the name ends with it. *)
Lemma basename_split (name : string) :
  after_last "/"%char (basename name) = None /\
  exists pre, name = (pre ++ basename name)%string.
Proof.
  unfold basename. destruct (after_last "/"%char name) as [u|] eqn:H.
  - destruct (after_last_split _ _ _ H) as [Hn [b [-> Hb]]].
    split; [exact Hb|].
    exists (before_last "/"%char name ++ "/")%string.
    now rewrite append_assoc.
  - split; [exact H | exists ""; reflexivity].
Qed.

Lemma basename_idem (name : string) : basename (basename name) = basename name.
Proof.
  destruct (basename_split name) as [H _].
  unfold basename at 1. now rewrite H.
Qed.

(** A suffix of a string without [c] is without [c]. *)
Lemma after_last_none_suffix (c : ascii) (a b : string) :
  after_last c (a ++ b) = None -> after_last c b = None.
Proof.
  intros H. destruct (after_last c b) as [t|] eqn:Hb; [|reflexivity].
  destruct (after_last_app_some c a b t Hb) as [H1 _]. congruence.
Qed.

Lemma has_stem_after_last (name : string) :
  has_stem name = true ->
  after_last "."%char name = after_last "."%char (basename name).
Proof.
  unfold has_stem. destruct (basename_split name) as [_ [pre Hn]].
  destruct (after_last "."%char (basename name)) as [t|] eqn:Hd;
    [|discriminate].
  intros _. rewrite Hn at 1.
  now destruct (after_last_app_some "."%char pre _ t Hd).
Qed.

Lemma append_cancel_r (a b t : string) :
  (a ++ t)%string = (b ++ t)%string -> a = b.
Proof.
  revert b. induction a as [|x a IH]; intros [|y b] H; cbn [append] in H.
  - reflexivity.
  - apply (f_equal String.length) in H. cbn [String.length] in H.
    rewrite length_append in H. lia.
  - apply (f_equal String.length) in H. cbn [String.length] in H.
    rewrite length_append in H. lia.
  - injection H as -> H. f_equal. now apply IH.
Qed.

(** X2.  The extension that [os.path.splitext] returns is empty, or a dot
    followed by characters none of which is a dot or a slash; and when it is
    not empty, the root does not end in a slash and is not made of dots
    alone. *)
Theorem splitext_ext_shape (p : string) :
  snd (PyStr.splitext p) = EmptyString \/
  exists t,
    snd (PyStr.splitext p) = String "."%char t /\
    after_last "."%char t = None /\
    after_last "/"%char t = None /\
    has_non_dot (basename (fst (PyStr.splitext p))) = true.
Proof.
  pose proof (splitext_root_ext p) as Hcut.
  rewrite splitext_spec in *.
  destruct (has_stem p) eqn:Hs; [|now left].
  pose proof (has_stem_after_last p Hs) as Ha.
  unfold has_stem in Hs.
  destruct (basename_split p) as [Hb [pre Hp]].
  destruct (after_last "."%char (basename p)) as [t|] eqn:Hd; [|discriminate].
  rewrite Ha in *.
  destruct (after_last_split _ _ _ Hd) as [Hsplit [t' [-> Ht']]].
  right. exists t'. split; [reflexivity|]. split; [exact Ht'|].
  assert (Hsl : after_last "/"%char (String "."%char t') = None).
  { rewrite Hsplit in Hb. exact (after_last_none_suffix _ _ _ Hb). }
  split.
  - cbn [after_last] in Hsl.
    destruct (after_last "/"%char t'); [discriminate | reflexivity].
  - assert (Hroot : fst (PyStr.splitext p) =
                    (pre ++ before_last "."%char (basename p))%string).
    { apply (append_cancel_r _ _ (String "."%char t')).
      rewrite Hcut, append_assoc, <- Hsplit. exact Hp. }
    rewrite Hroot.
    assert (Hnb : after_last "/"%char (before_last "."%char (basename p)) = None).
    { rewrite Hsplit in Hb.
      destruct (after_last "/"%char (before_last "."%char (basename p)))
        as [u|] eqn:Hu; [|reflexivity].
      destruct (after_last_app_none "/"%char
                  (before_last "."%char (basename p)) _ Hsl) as [H1 _].
      rewrite Hu in H1. cbn [option_map] in H1. congruence. }
    rewrite (basename_append pre _ Hnb), has_non_dot_append, Hs.
    apply orb_true_r.
Qed.

(** X3.  The content type depends on the last path component alone: the
    part of the name up to its last slash plays no role. *)
Theorem classify_basename (name : string) :
  classify (basename name) = classify name.
Proof.
  unfold classify. rewrite !file_extension_spec.
  assert (Hst : has_stem (basename name) = has_stem name)
    by (unfold has_stem; now rewrite basename_idem).
  rewrite Hst. destruct (has_stem name) eqn:Hs; [|reflexivity].
  unfold spec_extension.
  rewrite (has_stem_after_last name Hs).
  rewrite (has_stem_after_last _ Hst), basename_idem.
  reflexivity.
Qed.

(** X4.  Whatever the name, the content type that line 61 sends fits the
    [ContentType] column that line 36 declares. *)
Theorem content_type_fits_column (name : string) (w : nat) :
  column_width "ContentType" = Some w ->
  (String.length (classify name) <= w)%nat.
Proof.
  intros H. injection H as <-.
  unfold classify, content_type_of.
  repeat match goal with
         | |- context [String.eqb ?a ?b] => destruct (String.eqb a b)
         end; cbn [String.length]; lia.
Qed.

Lemma content_type_fits_column_witness :
  column_width "ContentType" = Some 100%nat /\
  (String.length (classify "inbox/Order-17.JSON") <= 100)%nat.
Proof.
  split; [reflexivity|].
  apply (content_type_fits_column "inbox/Order-17.JSON" 100). reflexivity.
Defined.

(** ** The store, further *)

(** [insert_sql] leaves every other table as it is. *)
Lemma insert_into_other (row : Z -> AuditRecord) (c c' : catalog)
      (H : insert_into "BlobAudit" row c = Some c') (n : string) :
  n <> "BlobAudit" -> find_table n c' = find_table n c.
Proof.
  intros Hn. revert c' H. unfold find_table.
  induction c as [|t c IH]; intros c' H; cbn [insert_into] in H;
    [discriminate|].
  destruct (named "BlobAudit" t) eqn:Ht.
  - injection H as <-. cbn [find]. unfold named in *. cbn [tbl_name].
    apply String.eqb_eq in Ht.
    destruct (String.eqb_spec (tbl_name t) n); [congruence | reflexivity].
  - destruct (insert_into "BlobAudit" row c) as [c2|]; [|discriminate].
    injection H as <-. cbn [find]. now rewrite (IH c2 eq_refl).
Qed.

(** ** The handler on further paths *)

Lemma reachable_outcome (E : environment) :
  reachable E -> outcome_after_commit E = Return tt.
Proof. intros HR. unfold outcome_after_commit. now rewrite !HR. Qed.

(** Once the insert's commit has succeeded, the suite ends as the four
    later calls decide, and the row is in the store. *)
Lemma try_suite_after_commit (E : environment) (event : func.InputStream)
      (c : catalog) (sp : list client_call) (lg : list log_record)
      (a : ascii) (s : string) :
  SQLConnectionString E = Some (String a s) ->
  fault E at_connect = None -> fault E at_cursor = None ->
  fault E at_execute_create = None -> fault E at_commit_create = None ->
  fault E at_execute_insert = None -> fault E at_commit_insert = None ->
  exists w1,
    try_suite E event (World c c Unbound Unbound None sp lg) =
      (outcome_after_commit E, w1) /\
    committed w1 = recorded E event c.
Proof.
  intros Hs H1 H2 H3 H4 H5 H6.
  destruct (recorded_spec E event c) as [Hi [_ [_ Hex]]].
  unfold try_suite, ensure, recordAudit, countAll.
  rewrite Hs.
  run_with ltac:(first
    [ rewrite H1 | rewrite H2 | rewrite H3 | rewrite H4 | rewrite H5
    | rewrite H6 | rewrite execute_create | rewrite Hi
    | rewrite (execute_count _ _ Hex)
    | match goal with
      | |- context [fault E ?s] => destruct (fault E s) eqn:?
      end ]);
    unfold outcome_after_commit;
    repeat match goal with
           | H : fault E _ = _ |- _ => rewrite H
           end;
    eexists; split; reflexivity.
Qed.

Lemma handle_after_commit (E : environment) (event : func.InputStream)
      (c : catalog) :
  configured E = true ->
  fault E at_connect = None -> fault E at_cursor = None ->
  fault E at_execute_create = None -> fault E at_commit_create = None ->
  fault E at_execute_insert = None -> fault E at_commit_insert = None ->
  exists w,
    handle E event c = (outcome_after_commit E, w) /\
    committed w = recorded E event c.
Proof.
  intros HC H1 H2 H3 H4 H5 H6.
  destruct (configured_inv E HC) as [a [s Hs]].
  destruct (try_suite_after_commit E event c [] (logs (started event (fresh c)))
              a s Hs H1 H2 H3 H4 H5 H6) as [w1 [Ht Hc]].
  change (World c c Unbound Unbound None [] (logs (started event (fresh c))))
    with (started event (fresh c)) in Ht.
  destruct (main_outcome _ _ _ _ _ Ht) as [w2 [w3 [_ [_ [Hm [Hc3 _]]]]]].
  exists w3. split; [exact Hm | now rewrite Hc3].
Qed.

(** X5.  Once the insert and its commit have succeeded, the audit row is
    durable whatever happens next, while the invocation still fails when a
    later call fails: the outcome is the first failure among the count
    statement, the fetch and the two closes of lines 71-72, and a normal
    return only when there is none.  A failed invocation can therefore
    leave its row behind. *)
Theorem row_durable_after_commit :
  forall (E : environment) (event : func.InputStream) (c : catalog),
    configured E = true ->
    fault E at_connect = None -> fault E at_cursor = None ->
    fault E at_execute_create = None -> fault E at_commit_create = None ->
    fault E at_execute_insert = None -> fault E at_commit_insert = None ->
    fst (handle E event c) = outcome_after_commit E /\
    rows (committed (snd (handle E event c))) = rows c ++ [audit_row E event c].
Proof.
  intros E event c HC H1 H2 H3 H4 H5 H6.
  destruct (handle_after_commit E event c HC H1 H2 H3 H4 H5 H6) as [w [Hw Hc]].
  destruct (recorded_spec E event c) as [_ [Hrows _]].
  rewrite Hw. cbn [fst snd]. now rewrite Hc, Hrows.
Qed.

Lemma row_durable_after_commit_witness :
  fst (handle E_count_fails invoice []) = Raise link_failure /\
  rows (committed (snd (handle E_count_fails invoice []))) =
    [ {| Id := 1; BlobName := "invoice-2024.edi"; BlobSize := 4096;
         ProcessedAt := 1700000000; ContentType := "application/edi";
         Status := "Processed" |} ].
Proof.
  exact (row_durable_after_commit E_count_fails invoice []
           eq_refl eq_refl eq_refl eq_refl eq_refl eq_refl eq_refl).
Defined.

(** X6.  Nothing makes an invocation idempotent: when an invocation fails
    after its insert was committed and the same event is handled again, this
    time without a failure, the store holds two rows for the event, alike in
    everything but their [Id], which are consecutive. *)
Theorem retry_duplicates_the_row :
  forall (E1 E2 : environment) (event : func.InputStream) (c : catalog)
         (e : exn),
    configured E1 = true ->
    fault E1 at_connect = None -> fault E1 at_cursor = None ->
    fault E1 at_execute_create = None -> fault E1 at_commit_create = None ->
    fault E1 at_execute_insert = None -> fault E1 at_commit_insert = None ->
    outcome_after_commit E1 = Raise e ->
    configured E2 = true -> reachable E2 ->
    exists w1 w2 r1 r2,
      handle E1 event c = (Raise e, w1) /\
      handle E2 event (committed w1) = (Return tt, w2) /\
      rows (committed w2) = rows c ++ [r1; r2] /\
      BlobName r1 = func.name event /\ BlobName r2 = func.name event /\
      BlobSize r1 = BlobSize r2 /\ ContentType r1 = ContentType r2 /\
      Status r1 = Status r2 /\
      Id r2 = Id r1 + 1.
Proof.
  intros E1 E2 event c e HC1 H1 H2 H3 H4 H5 H6 Hout HC2 HR2.
  destruct (handle_after_commit E1 event c HC1 H1 H2 H3 H4 H5 H6)
    as [w1 [Hw1 Hc1]].
  destruct (handle_returns E2 event (recorded E1 event c) HC2 HR2)
    as [w2 [Hw2 [Hc2 _]]].
  destruct (recorded_spec E1 event c) as [_ [Hrows1 [Hid1 _]]].
  destruct (recorded_spec E2 event (recorded E1 event c)) as [_ [Hrows2 _]].
  exists w1, w2, (audit_row E1 event c),
    (audit_row E2 event (recorded E1 event c)).
  rewrite Hw1, Hout, Hc1, Hw2, Hc2, Hrows2, Hrows1, <- app_assoc.
  cbn [audit_row Id BlobName BlobSize ContentType Status app].
  rewrite Hid1. repeat split.
Qed.

Lemma retry_duplicates_the_row_witness :
  exists w1 w2 r1 r2,
    handle E_count_fails invoice [] = (Raise link_failure, w1) /\
    handle E_ok invoice (committed w1) = (Return tt, w2) /\
    rows (committed w2) = [r1; r2] /\
    BlobName r1 = "invoice-2024.edi" /\ BlobName r2 = "invoice-2024.edi" /\
    Id r2 = Id r1 + 1.
Proof.
  destruct (retry_duplicates_the_row E_count_fails E_ok invoice [] link_failure
              eq_refl eq_refl eq_refl eq_refl eq_refl eq_refl eq_refl eq_refl
              eq_refl (fun s => eq_refl))
    as [w1 [w2 [r1 [r2 [A [B [C [D [F [_ [_ [_ G]]]]]]]]]]]].
  exists w1, w2, r1, r2. repeat split; assumption.
Defined.

(** X7.  [N] invocations in a row over a store that fails no call append
    [N] rows to [BlobAudit], one per event and in the order of the events,
    with consecutive [Id] values that start at the table's next identity;
    the rows that were there stay in front, unchanged. *)
Theorem invocations_append_in_order :
  forall (E : environment) (events : list func.InputStream) (c : catalog),
    configured E = true ->
    reachable E ->
    rows (invocations E events c) =
      rows c ++ audit_rows E events (next_identity c) /\
    next_identity (invocations E events c) =
      next_identity c + Z.of_nat (List.length events).
Proof.
  intros E events c HC HR. revert c.
  induction events as [|event rest IH]; intros c.
  - cbn [invocations audit_rows List.length Z.of_nat].
    rewrite app_nil_r. split; [reflexivity | lia].
  - cbn [invocations audit_rows].
    destruct (handle_returns E event c HC HR) as [w [Hw [Hc _]]].
    destruct (recorded_spec E event c) as [_ [Hrows [Hid _]]].
    rewrite Hw. cbn [snd]. rewrite Hc.
    destruct (IH (recorded E event c)) as [IH1 IH2].
    rewrite IH1, IH2, Hrows, Hid, <- app_assoc.
    split; [reflexivity|].
    cbn [List.length]. rewrite Nat2Z.inj_succ. lia.
Qed.

Lemma invocations_append_in_order_witness :
  rows (invocations E_ok [invoice; orders] []) =
    [ {| Id := 1; BlobName := "invoice-2024.edi"; BlobSize := 4096;
         ProcessedAt := 1700000000; ContentType := "application/edi";
         Status := "Processed" |};
      {| Id := 2; BlobName := "inbox/orders.XML"; BlobSize := 4;
         ProcessedAt := 1700000000; ContentType := "application/xml";
         Status := "Processed" |} ].
Proof.
  exact (proj1 (invocations_append_in_order E_ok [invoice; orders] []
                  eq_refl (fun s => eq_refl))).
Defined.

(** ** Every way through [main] *)

Ltac by_fault E :=
  idtac;
  match goal with
  | |- context [fault E ?s] => destruct (fault E s) eqn:?
  end.

(** The store at the end of the suite of the [try] is the one it found,
    that one with the table ensured, or that one with the row added. *)
Lemma try_suite_committed (E : environment) (event : func.InputStream)
      (c : catalog) (sp : list client_call) (lg : list log_record) :
  let w := snd (try_suite E event (World c c Unbound Unbound None sp lg)) in
  committed w = c \/ committed w = ensured c \/
  committed w = recorded E event c.
Proof.
  destruct (recorded_spec E event c) as [Hi [_ [_ Hex]]].
  unfold try_suite, ensure, recordAudit, countAll.
  destruct (SQLConnectionString E) as [[|a s]|];
    run_with ltac:(first
      [ rewrite execute_create | rewrite Hi | rewrite (execute_count _ _ Hex)
      | by_fault E ]);
    cbn [snd committed]; auto.
Qed.

(** The calls of the suite are its calls in program order up to and
    including the first one that fails. *)
Lemma try_suite_calls (E : environment) (event : func.InputStream)
      (c : catalog) (lg : list log_record) :
  spy (snd (try_suite E event (World c c Unbound Unbound None [] lg))) =
  firstn (calls_made E) (suite_calls E event).
Proof.
  destruct (recorded_spec E event c) as [Hi [_ [_ Hex]]].
  unfold try_suite, ensure, recordAudit, countAll, suite_calls, conn_str_of,
    calls_made, configured, suite_sites.
  destruct (SQLConnectionString E) as [[|a s]|];
    run_with ltac:(first
      [ rewrite execute_create | rewrite Hi | rewrite (execute_count _ _ Hex)
      | by_fault E ]);
    cbn [snd spy app calls_until_fault];
    repeat match goal with
           | H : fault E _ = _ |- _ => rewrite H
           end;
    reflexivity.
Qed.

(** The suite of the [try] logs at level [info] only. *)
Lemma try_suite_logs (E : environment) (event : func.InputStream)
      (c : catalog) (sp : list client_call) (lg : list log_record) :
  exists l,
    logs (snd (try_suite E event (World c c Unbound Unbound None sp lg))) =
      lg ++ l /\
    forallb is_info l = true.
Proof.
  destruct (recorded_spec E event c) as [Hi [_ [_ Hex]]].
  unfold try_suite, ensure, recordAudit, countAll.
  destruct (SQLConnectionString E) as [[|a s]|];
    run_with ltac:(first
      [ rewrite execute_create | rewrite Hi | rewrite (execute_count _ _ Hex)
      | by_fault E ]);
    cbn [snd logs]; rewrite <- ?app_assoc;
    first [ eexists; split; [reflexivity | reflexivity]
          | exists []; split; [symmetry; apply app_nil_r | reflexivity] ].
Qed.

(** What the [finally] clause adds to the calls. *)
Lemma finally_suite_calls (E : environment) (w : world) :
  exists l,
    spy (snd (finally_suite E w)) = spy w ++ l /\ In l cleanup_calls.
Proof.
  destruct w as [cm se hcn hcur rs sp lg]. unfold finally_suite, cleanup_calls.
  destruct hcur, hcn;
    run_with ltac:(by_fault E);
    cbn [snd spy]; rewrite <- ?app_assoc; cbn [app];
    first [ exists []; split; [symmetry; apply app_nil_r | simpl; tauto]
          | eexists; split; [reflexivity | simpl; tauto] ].
Qed.

Lemma except_clauses_logs (e : exn) (w : world) :
  except_clauses e w =
  (Raise e,
   World (committed w) (session w) (cn w) (cur w) (resultset w) (spy w)
     (logs w ++ error_records e)).
Proof.
  destruct w as [cm se hcn hcur rs sp lg].
  unfold except_clauses, error_records.
  destruct (is_pyodbc_Error e); [|destruct (is_Exception e)];
    run_with fail; rewrite <- ?app_assoc, ?app_nil_r; reflexivity.
Qed.

(** X8.  Whatever fails, an invocation leaves the store as it found it, or
    with the table ensured, or with the table ensured and the event's row
    added.  So the rows of [BlobAudit] that were there stay, in front and
    unchanged, at most one row is added, and no other table of the store is
    touched. *)
Theorem store_is_append_only :
  forall (E : environment) (event : func.InputStream) (c : catalog),
    let after := committed (snd (handle E event c)) in
    (after = c \/ after = ensured c \/ after = recorded E event c) /\
    (rows after = rows c \/ rows after = rows c ++ [audit_row E event c]) /\
    (forall n, n <> "BlobAudit" -> find_table n after = find_table n c).
Proof.
  intros E event c after.
  assert (H : after = c \/ after = ensured c \/ after = recorded E event c).
  { subst after. unfold handle.
    destruct (try_suite E event (started event (fresh c))) as [r w1] eqn:Ht.
    destruct (main_outcome _ _ _ _ _ Ht) as [w2 [w3 [_ [_ [Hm [Hc _]]]]]].
    rewrite Hm. cbn [snd]. rewrite Hc.
    pose proof (try_suite_committed E event c []
                  (logs (started event (fresh c)))) as Hcases.
    change (World c c Unbound Unbound None [] (logs (started event (fresh c))))
      with (started event (fresh c)) in Hcases.
    rewrite Ht in Hcases. exact Hcases. }
  destruct (recorded_spec E event c) as [Hi [Hrows _]].
  split; [exact H | split].
  - destruct H as [-> | [-> | ->]]; rewrite ?ensured_rows; auto.
  - intros n Hn.
    assert (He : find_table n (ensured c) = find_table n c).
    { unfold ensured. destruct (exists_table "BlobAudit" c); [reflexivity|].
      rewrite find_table_app. destruct (find_table n c); [reflexivity|].
      unfold find_table, named. cbn [find new_BlobAudit tbl_name].
      destruct (String.eqb_spec "BlobAudit" n); [congruence | reflexivity]. }
    destruct H as [-> | [-> | ->]]; [reflexivity | exact He |].
    rewrite <- He. unfold execute in Hi.
    destruct (insert_into _ _ (ensured c)) as [c'|] eqn:Hins; [|discriminate].
    injection Hi as <-.
    apply (insert_into_other _ _ _ Hins n Hn).
Qed.

Lemma store_is_append_only_witness :
  find_table "Orders" (committed (snd (handle E_link_lost invoice c_orders))) =
  find_table "Orders" c_orders.
Proof.
  apply (proj2 (proj2 (store_is_append_only E_link_lost invoice c_orders))).
  discriminate.
Defined.

(** X9.  Whatever fails, the calls that [main] passes to the store client
    are the calls of the suite in program order (connect, cursor, schema
    statement, commit, insert, commit, count, fetch, close, close) up to and
    including the first one that fails (none of them without a connection
    string), followed by what the [finally] clause adds: at most one close
    of the cursor and then at most one close of the connection.  So nothing
    is retried, and after a failed call no statement and no commit is
    sent. *)
Theorem calls_follow_program_order :
  forall (E : environment) (event : func.InputStream) (c : catalog),
    exists l,
      spy (snd (handle E event c)) =
        firstn (calls_made E) (suite_calls E event) ++ l /\
      In l cleanup_calls.
Proof.
  intros E event c. unfold handle.
  destruct (try_suite E event (started event (fresh c))) as [r w1] eqn:Ht.
  destruct (main_outcome _ _ _ _ _ Ht) as [w2 [w3 [H2 [Hf [Hm _]]]]].
  pose proof (try_suite_calls E event c (logs (started event (fresh c))))
    as Hn.
  change (World c c Unbound Unbound None [] (logs (started event (fresh c))))
    with (started event (fresh c)) in Hn.
  rewrite Ht in Hn. cbn [snd] in Hn.
  assert (Hs2 : spy w2 = spy w1).
  { destruct r as [[]|e]; [now subst|].
    rewrite except_clauses_logs in H2. injection H2 as <-. reflexivity. }
  destruct (finally_suite_calls E w2) as [l [Hl Hin]].
  rewrite Hf in Hl. cbn [snd] in Hl.
  exists l. rewrite Hm. cbn [snd]. rewrite Hl, Hs2, Hn. auto.
Qed.

(** X10.  An invocation that returns normally has logged at level [info]
    only.  One that raises [e] has logged, last and after [info] records
    only, the error records of [e]: two for a [pyodbc.Error] (the error and
    its SQL state), two for any other [Exception] (the error and its type
    name, which is how a missing connection string is reported), none for an
    exception outside [Exception]. *)
Theorem faults_are_logged_by_class :
  forall (E : environment) (event : func.InputStream) (c : catalog)
         (r : result unit) (w : world),
    handle E event c = (r, w) ->
    exists pre,
      forallb is_info pre = true /\
      logs w =
      pre ++ match r with
             | Return _ => []
             | Raise e => error_records e
             end.
Proof.
  intros E event c r w H. unfold handle in H.
  destruct (try_suite E event (started event (fresh c))) as [r1 w1] eqn:Ht.
  destruct (main_outcome _ _ _ _ _ Ht) as [w2 [w3 [H2 [Hf [Hm _]]]]].
  rewrite Hm in H. injection H as -> ->.
  destruct (try_suite_logs E event c [] (logs (started event (fresh c))))
    as [l [Hl Hinfo]].
  change (World c c Unbound Unbound None [] (logs (started event (fresh c))))
    with (started event (fresh c)) in Hl.
  rewrite Ht in Hl. cbn [snd] in Hl.
  destruct (finally_suite_frame E w2) as [w' [l' [Hf' [_ [Hlogs _]]]]].
  rewrite Hf in Hf'. injection Hf' as <-.
  exists (logs (started event (fresh c)) ++ l). split.
  - rewrite forallb_app, Hinfo. reflexivity.
  - rewrite Hlogs. destruct r as [[]|e].
    + subst w2. now rewrite app_nil_r.
    + rewrite except_clauses_logs in H2. injection H2 as <-.
      cbn [logs]. now rewrite Hl.
Qed.

Lemma faults_are_logged_by_class_witness :
  exists pre,
    forallb is_info pre = true /\
    logs (snd (handle E_unset invoice [])) =
    pre ++ [ error "Unexpected error in BlobTriggerFunction: %s"
               [X_ {| exn_type := ValueError;
                      exn_arg := "SQLConnectionString environment variable not found" |}];
             error "Error type: %s" [S_ "ValueError"] ].
Proof.
  assert (H : handle E_unset invoice [] =
              (Raise {| exn_type := ValueError;
                        exn_arg := "SQLConnectionString environment variable not found" |},
               snd (handle E_unset invoice [])))
    by (vm_compute; reflexivity).
  exact (faults_are_logged_by_class E_unset invoice [] _ _ H).
Defined.

(** X11.  A client object can only be left open by a close that failed: when
    the connection or the cursor is still open at the end of an invocation,
    one of the four close calls (lines 71, 72, 88, 90) has failed. *)
Theorem open_object_means_failed_close :
  forall (E : environment) (event : func.InputStream) (c : catalog),
    released (snd (handle E event c)) = false ->
    exists s e, In s close_sites /\ fault E s = Some e.
Proof.
  intros E event c H. unfold close_sites.
  destruct (fault E at_cur_close) as [e|] eqn:H1;
    [exists at_cur_close, e; simpl; tauto|].
  destruct (fault E at_cn_close) as [e|] eqn:H2;
    [exists at_cn_close, e; simpl; tauto|].
  destruct (fault E at_finally_cur_close) as [e|] eqn:H3;
    [exists at_finally_cur_close, e; simpl; tauto|].
  destruct (fault E at_finally_cn_close) as [e|] eqn:H4;
    [exists at_finally_cn_close, e; simpl; tauto|].
  rewrite (handle_releases_when_closes_succeed E event c H1 H2 H3 H4) in H.
  discriminate.
Qed.

Lemma open_object_means_failed_close_witness :
  released (snd (handle E_link_lost invoice [])) = false /\
  exists s e, In s close_sites /\ fault E_link_lost s = Some e.
Proof.
  assert (H : released (snd (handle E_link_lost invoice [])) = false)
    by (vm_compute; reflexivity).
  split; [exact H|].
  exact (open_object_means_failed_close E_link_lost invoice [] H).
Defined.

(** X12.  On the path without a failure the store receives exactly the ten
    calls of the suite, once each and in program order; the [finally]
    clause adds none, its close of the cursor being refused by the client
    because line 71 closed it.  Both objects end closed and the session
    holds no uncommitted work. *)
Theorem success_makes_ten_calls :
  forall (E : environment) (event : func.InputStream) (c : catalog),
    configured E = true ->
    reachable E ->
    fst (handle E event c) = Return tt /\
    spy (snd (handle E event c)) = suite_calls E event /\
    cn (snd (handle E event c)) = Closed /\
    cur (snd (handle E event c)) = Closed /\
    session (snd (handle E event c)) = committed (snd (handle E event c)).
Proof.
  intros E event c HC HR. destruct (configured_inv E HC) as [a [s Hs]].
  pose proof (try_suite_returns E event c [] (logs (started event (fresh c)))
                a s Hs HR) as Ht.
  change (World c c Unbound Unbound None [] (logs (started event (fresh c))))
    with (started event (fresh c)) in Ht.
  destruct (main_outcome _ _ _ _ _ Ht) as [w2 [w3 [-> [Hf [Hm _]]]]].
  rewrite finally_suite_closed in Hf. injection Hf as <-.
  unfold handle. rewrite Hm. unfold suite_calls, conn_str_of. rewrite Hs.
  cbn. repeat split.
Qed.

Lemma success_makes_ten_calls_witness :
  spy (snd (handle E_ok orders [])) = suite_calls E_ok orders /\
  List.length (spy (snd (handle E_ok orders []))) = 10%nat.
Proof.
  destruct (success_makes_ten_calls E_ok orders [] eq_refl (fun s => eq_refl))
    as [_ [H _]].
  split; [exact H | now rewrite H].
Defined.

Lemma try_suite_outcome (E : environment) (event : func.InputStream)
      (c : catalog) (sp : list client_call) (lg : list log_record) :
  fst (try_suite E event (World c c Unbound Unbound None sp lg)) =
  announced_outcome E.
Proof.
  destruct (recorded_spec E event c) as [Hi [_ [_ Hex]]].
  unfold try_suite, ensure, recordAudit, countAll, announced_outcome,
    configured.
  destruct (SQLConnectionString E) as [[|a s]|];
    run_with ltac:(first
      [ rewrite execute_create | rewrite Hi | rewrite (execute_count _ _ Hex)
      | by_fault E ]);
    cbn [fst first_fault suite_sites];
    repeat match goal with
           | H : fault E _ = _ |- _ => rewrite H
           end;
    reflexivity.
Qed.

(** X13.  Without a connection string an invocation raises the [ValueError]
    of line 19.  Otherwise it raises the exception of the first of its ten
    calls (lines 24 to 72, in program order) that fails, and it returns
    normally when none of them fails; a call that the client or the store
    refuses for its parameters is a call that fails.  A failure in the
    [finally] clause changes nothing of this. *)
Theorem outcome_is_first_failure :
  forall (E : environment) (event : func.InputStream) (c : catalog),
    fst (handle E event c) = announced_outcome E.
Proof.
  intros E event c. unfold handle.
  destruct (try_suite E event (started event (fresh c))) as [r w1] eqn:Ht.
  destruct (main_outcome _ _ _ _ _ Ht) as [w2 [w3 [_ [_ [Hm _]]]]].
  rewrite Hm. cbn [fst].
  rewrite <- (try_suite_outcome E event c []
                (logs (started event (fresh c)))).
  change (World c c Unbound Unbound None [] (logs (started event (fresh c))))
    with (started event (fresh c)).
  now rewrite Ht.
Qed.

(** X14.  When there is no connection string, or the invocation fails
    before the schema step is committed (at the connect, at the cursor, at
    the schema statement or at its commit), the store is exactly as it was:
    not even the table has been created. *)
Theorem nothing_written_before_schema_commit :
  forall (E : environment) (event : func.InputStream) (c : catalog),
    configured E = false \/
    first_fault E [at_connect; at_cursor; at_execute_create; at_commit_create]
      <> None ->
    committed (snd (handle E event c)) = c.
Proof.
  intros E event c Hff. unfold handle.
  destruct (try_suite E event (started event (fresh c))) as [r w1] eqn:Ht.
  destruct (main_outcome _ _ _ _ _ Ht) as [w2 [w3 [_ [_ [Hm [Hc _]]]]]].
  rewrite Hm. cbn [snd]. rewrite Hc.
  replace w1 with (snd (try_suite E event (started event (fresh c))))
    by now rewrite Ht.
  rewrite started_fresh. clear Ht Hm Hc.
  unfold try_suite, ensure. unfold configured in Hff. cbn [first_fault] in Hff.
  destruct (SQLConnectionString E) as [[|a s]|];
    run_with ltac:(first [ rewrite execute_create | by_fault E ]);
    try reflexivity;
    repeat match goal with
           | H : fault E _ = _ |- _ => rewrite H in Hff
           end;
    destruct Hff as [Hff | Hff]; congruence.
Qed.

Lemma nothing_written_before_schema_commit_witness :
  committed (snd (handle E_commit_fails invoice [])) = [].
Proof.
  apply (nothing_written_before_schema_commit E_commit_fails invoice []).
  right. discriminate.
Defined.

(** X15.  On the path without a failure, the total that line 68 logs is the
    number of rows that [BlobAudit] holds when the invocation ends, the new
    row included. *)
Theorem logged_total_is_row_count :
  forall (E : environment) (event : func.InputStream) (c : catalog),
    configured E = true ->
    reachable E ->
    In (info "Total files processed so far: %d"
          [D_ (Z.of_nat
                 (List.length (rows (committed (snd (handle E event c))))))])
       (logs (snd (handle E event c))).
Proof.
  intros E event c HC HR.
  destruct (handle_returns E event c HC HR) as [w [Hw [Hc [_ Hlog]]]].
  destruct (recorded_spec E event c) as [_ [Hrows _]].
  rewrite Hw. cbn [snd]. rewrite Hc, Hrows, length_app, Nat2Z.inj_add.
  exact Hlog.
Qed.

Lemma logged_total_is_row_count_witness :
  In (info "Total files processed so far: %d" [D_ 2])
     (logs (snd (handle E_ok invoice
                   (committed (snd (handle E_ok orders [])))))).
Proof.
  assert (H : List.length
                (rows (committed
                         (snd (handle E_ok invoice
                                 (committed (snd (handle E_ok orders []))))))) = 2%nat)
    by (vm_compute; reflexivity).
  pose proof (logged_total_is_row_count E_ok invoice
                (committed (snd (handle E_ok orders [])))
                eq_refl (fun s => eq_refl)) as L.
  rewrite H in L. exact L.
Defined.

(** X16.  When everything up to the fetch succeeds and the close of the
    cursor at line 71 fails, the invocation raises that error with the row
    already committed, and the connection stays open: line 72 is skipped,
    and in the [finally] clause the close of the cursor (line 88) is refused
    because the cursor is already marked closed, which leaves the [try]
    before line 90, so that no close of the connection is ever attempted. *)
Theorem failed_cursor_close_leaves_connection_open :
  forall (E : environment) (event : func.InputStream) (c : catalog) (e : exn),
    configured E = true ->
    first_fault E [ at_connect; at_cursor; at_execute_create; at_commit_create;
                    at_execute_insert; at_commit_insert; at_execute_count;
                    at_fetchone ] = None ->
    fault E at_cur_close = Some e ->
    fst (handle E event c) = Raise e /\
    cn (snd (handle E event c)) = Open /\
    cur (snd (handle E event c)) = Closed /\
    ~ In ConnectionClose (spy (snd (handle E event c))) /\
    rows (committed (snd (handle E event c))) = rows c ++ [audit_row E event c].
Proof.
  intros E event c e HC Hff H9.
  destruct (configured_inv E HC) as [a [s Hs]].
  destruct (recorded_spec E event c) as [Hi [Hrows [_ Hex]]].
  cbn [first_fault] in Hff.
  destruct (fault E at_connect) eqn:H1; [discriminate|].
  destruct (fault E at_cursor) eqn:H2; [discriminate|].
  destruct (fault E at_execute_create) eqn:H3; [discriminate|].
  destruct (fault E at_commit_create) eqn:H4; [discriminate|].
  destruct (fault E at_execute_insert) eqn:H5; [discriminate|].
  destruct (fault E at_commit_insert) eqn:H6; [discriminate|].
  destruct (fault E at_execute_count) eqn:H7; [discriminate|].
  destruct (fault E at_fetchone) eqn:H8; [discriminate|].
  clear Hff.
  assert (Hh : exists lg,
             handle E event c =
             (Raise e,
              World (recorded E event c) (recorded E event c) Open Closed None
                [ Connect (String a s) 30; Cursor; Execute create_table_sql;
                  Commit;
                  Execute (insert_sql (func.name event) (func.length event)
                             (classify (func.name event)) "Processed");
                  Commit; Execute count_sql; Fetchone; CursorClose ] lg)).
  { unfold handle. rewrite main_unfold, try_finally_unfold, try_except_unfold.
    rewrite started_fresh.
    unfold try_suite, ensure, recordAudit, countAll. rewrite Hs.
    run_with ltac:(first
      [ rewrite H1 | rewrite H2 | rewrite H3 | rewrite H4 | rewrite H5
      | rewrite H6 | rewrite H7 | rewrite H8 | rewrite H9
      | rewrite execute_create | rewrite Hi | rewrite (execute_count _ _ Hex)
      | rewrite except_clauses_logs
      | progress unfold finally_suite ]).
    eexists. reflexivity. }
  destruct Hh as [lg Hh]. rewrite Hh. cbn [fst snd cn cur spy committed].
  repeat split; try assumption.
  simpl. intuition discriminate.
Qed.

Lemma failed_cursor_close_leaves_connection_open_witness :
  fst (handle E_close_fails invoice []) = Raise link_failure /\
  cn (snd (handle E_close_fails invoice [])) = Open /\
  ~ In ConnectionClose (spy (snd (handle E_close_fails invoice []))).
Proof.
  destruct (failed_cursor_close_leaves_connection_open E_close_fails invoice []
              link_failure eq_refl eq_refl eq_refl)
    as [H1 [H2 [_ [H3 _]]]].
  repeat split; assumption.
Defined.
